(** * whisper-meet: dual-source mixing and speaker-turn assembly

    A shallow embedding of the computational core of the repository:

    - [test_record_merge.py]: the per-cycle mixing of a microphone chunk and
      a system chunk inside [MeetingRecorder.record_combined_audio];
    - [go_transcribe.py]: [merge_close_segments],
      [calculate_speaker_confidence] and the "Assign speakers" stage of
      [main] (grouping of words, merging, scoring, Markdown output);
    - [go_record_and_transcribe.py]: the same stage without merging and
      scoring.

    Modelling conventions.

    - A numpy [int16] sample is a [Z] in [-32768, 32767]; arithmetic on
      [int16] arrays wraps around modulo 2^16, which is written out in
      [wrap16].
    - Time stamps and durations are floats in the source.  They are
      modelled as exact rationals [Q]: rounding is abstracted, the control
      flow and the algebra of the code are kept.  Comparisons are the
      boolean ones of [Q].  True division depends on the kind of the
      numbers ([times]): on Python numbers a zero divisor raises
      [ZeroDivisionError], on numpy scalars it gives [nan] or an infinity
      ([number]).
    - A Python [dict] whose iteration order matters ([grouped],
      [speaker_stats]) is an association list in insertion order.
    - Exceptions are values of [exn], propagated by the error monad
      [result]. *)

From Stdlib Require Import ZArith QArith Qabs List String Ascii Bool Lia Lqa.
From Stdlib Require Import Permutation Sorted SetoidList SetoidPermutation.
Import ListNotations.

Local Open Scope list_scope.

(** ** Exceptions and the error monad *)

Inductive exn : Type :=
| ValueError (msg : string)
| TypeError (msg : string)
| ZeroDivisionError
| ShapeError (n m : nat).

Inductive result (A : Type) : Type :=
| Ok (a : A)
| Raise (e : exn).

Arguments Ok {A} a.
Arguments Raise {A} e.

Definition bind {A B : Type} (r : result A) (k : A -> result B) : result B :=
  match r with
  | Ok a => k a
  | Raise e => Raise e
  end.

Notation "x <- r ;; k" := (bind r (fun x => k))
  (at level 61, r at next level, right associativity).

(** ** The mixer of [test_record_merge.py] *)

Module Mixer.

Local Open Scope Z_scope.

(** Two's-complement wrap-around of numpy's [int16]. *)
Definition wrap16 (z : Z) : Z := (z + 32768) mod 65536 - 32768.

Definition is_int16 (z : Z) : Prop := -32768 <= z <= 32767.

(** [a + b] on two [int16] arrays, one element: the sum is computed in
    [int16] and overflows silently. *)
Definition int16_add (a b : Z) : Z := wrap16 (a + b).

(** [np.clip(x, lo, hi)], one element: [minimum(maximum(x, lo), hi)]. *)
Definition clip (lo hi x : Z) : Z := Z.min (Z.max x lo) hi.

(** [.astype(np.int16)], one element. *)
Definition astype_int16 (z : Z) : Z := wrap16 z.

(** One sample of
    [np.clip(mic_data + sys_data.flatten(), -32768, 32767).astype(np.int16)]. *)
Definition mix_sample (mic sys : Z) : Z :=
  astype_int16 (clip (-32768) 32767 (int16_add mic sys)).

(** [sys_data.flatten()]: [sd.rec] returns an array of shape
    (frames, channels), a list of frames. *)
Definition flatten (sys_data : list (list Z)) : list Z := concat sys_data.

Fixpoint zip_with (f : Z -> Z -> Z) (xs ys : list Z) : list Z :=
  match xs, ys with
  | x :: xs', y :: ys' => f x y :: zip_with f xs' ys'
  | _, _ => []
  end.

(** Elementwise binary operation on two one-dimensional arrays with numpy's
    broadcasting: equal shapes combine pointwise, a length-one operand is
    stretched, anything else raises. *)
Definition broadcast (f : Z -> Z -> Z) (xs ys : list Z) : result (list Z) :=
  if Nat.eqb (length xs) (length ys) then Ok (zip_with f xs ys)
  else match xs, ys with
       | [x], _ => Ok (map (f x) ys)
       | _, [y] => Ok (map (fun x => f x y) xs)
       | _, _ => Raise (ShapeError (length xs) (length ys))
       end.

(** The mixing line of the capture loop, on whole chunks. *)
Definition mix_chunk (mic_data : list Z) (sys_data : list (list Z))
  : result (list Z) :=
  summed <- broadcast int16_add mic_data (flatten sys_data) ;;
  Ok (map (fun x => astype_int16 (clip (-32768) 32767 x)) summed).

(** What [record_combined_audio] leaves behind. *)
Record capture : Type := mkCapture {
  saved : option (list Z);      (* samples handed to [wavfile.write] *)
  failure : option exn          (* exception caught by the outer handler *)
}.

(** The capture loop.  Each element of [cycles] is the pair
    [(sys_data, mic_data)] pulled in one iteration while [self.recording]
    is true; [combined_audio] is the accumulator. *)
Fixpoint capture_loop (cycles : list (list (list Z) * list Z))
  (combined_audio : list (list Z)) : result (list (list Z)) :=
  match cycles with
  | [] => Ok combined_audio
  | (sys_data, mic_data) :: rest =>
      mixed_data <- mix_chunk mic_data sys_data ;;
      capture_loop rest (combined_audio ++ [mixed_data])
  end.

Definition record_combined_audio (cycles : list (list (list Z) * list Z))
  : capture :=
  match capture_loop cycles [] with
  | Ok combined_audio =>
      match combined_audio with
      | [] => mkCapture None None
      | _ => mkCapture (Some (concat combined_audio)) None
      end
  | Raise e => mkCapture None (Some e)
  end.

End Mixer.

(** ** Speaker turns: [go_transcribe.py] *)

Module Transcribe.

Local Open Scope Q_scope.

(** A segment dictionary with keys [speaker], [start], [end], [text]. *)
Record segment : Type := mkSegment {
  seg_speaker : string;
  seg_start : Q;
  seg_end : Q;
  seg_text : string
}.

(** *** [sorted(segments, key=lambda x: x['start'])]

    Python's [sorted] is stable.  Stable insertion sort: an element is put
    in front of the first later element whose key is not smaller. *)
Fixpoint insert_by_start (s : segment) (l : list segment) : list segment :=
  match l with
  | [] => [s]
  | h :: t =>
      if Qle_bool (seg_start s) (seg_start h) then s :: h :: t
      else h :: insert_by_start s t
  end.

Fixpoint sorted_by_start (l : list segment) : list segment :=
  match l with
  | [] => []
  | s :: t => insert_by_start s (sorted_by_start t)
  end.

(** *** [merge_close_segments] *)

(** The test of the [if]: gap within [max_gap] and same speaker. *)
Definition close (max_gap : Q) (current seg : segment) : bool :=
  Qle_bool (seg_start seg - seg_end current) max_gap
  && String.eqb (seg_speaker seg) (seg_speaker current).

(** The two assignments of the merging branch. *)
Definition extend (current seg : segment) : segment :=
  {| seg_speaker := seg_speaker current;
     seg_start := seg_start current;
     seg_end := seg_end seg;
     seg_text := (seg_text current ++ (" " ++ seg_text seg))%string |}.

(** One iteration of the loop on the state [(merged, current)]. *)
Definition merge_step (max_gap : Q)
  (st : list segment * option segment) (seg : segment)
  : list segment * option segment :=
  let '(merged, current) := st in
  match current with
  | None => (merged, Some seg)
  | Some cur =>
      if close max_gap cur seg
      then (merged, Some (extend cur seg))
      else (merged ++ [cur], Some seg)
  end.

Definition merge_close_segments (segments : list segment) (max_gap : Q)
  : list segment :=
  let '(merged, current) :=
    fold_left (merge_step max_gap) (sorted_by_start segments) ([], None) in
  match current with
  | Some cur => merged ++ [cur]
  | None => merged
  end.

(** *** [calculate_speaker_confidence] *)

(** What kind of numbers the time stamps of a run are.  [whisperx.align]
    delivers [numpy.float64] scalars; a word without the keys gets the
    Python [int] 0, and plain Python floats are accepted as well.  One
    numpy scalar among the time stamps makes every sum it enters, and so
    the total duration, a numpy scalar. *)
Inductive times : Type :=
| PythonNumbers      (* every time stamp is a Python [int] or [float] *)
| NumpyScalars.      (* the time stamps are [numpy.float64] scalars *)

(** A quotient: a finite value, or what numpy returns on a zero divisor. *)
Inductive number : Type :=
| Finite (q : Q)
| PosInf
| NegInf
| NaN.

(** True division [a / b].  On Python numbers a zero divisor raises
    [ZeroDivisionError]; on numpy scalars it gives [nan] or an infinity
    (with a warning) and nothing is raised. *)
Definition py_div (t : times) (a b : Q) : result number :=
  if Qeq_bool b 0 then
    match t with
    | PythonNumbers => Raise ZeroDivisionError
    | NumpyScalars =>
        Ok (if Qeq_bool a 0 then NaN
            else if Qle_bool 0 a then PosInf else NegInf)
    end
  else Ok (Finite (a / b)).

(** [x + y] and [x / 2] on quotients, as IEEE arithmetic has them. *)
Definition number_add (x y : number) : number :=
  match x, y with
  | NaN, _ | _, NaN => NaN
  | PosInf, NegInf | NegInf, PosInf => NaN
  | PosInf, _ | _, PosInf => PosInf
  | NegInf, _ | _, NegInf => NegInf
  | Finite a, Finite b => Finite (a + b)
  end.

Definition number_half (x : number) : number :=
  match x with
  | Finite a => Finite (a / 2)
  | other => other
  end.

(** An entry of [speaker_stats] after the first loop. *)
Record tally : Type := mkTally {
  duration : Q;
  segments : nat
}.

(** An entry of [speaker_stats] as returned. *)
Record speaker_stat : Type := mkStat {
  stat_duration : Q;
  stat_segments : nat;
  confidence : number
}.

(** [speaker_stats[speaker]['duration'] += d; ...['segments'] += 1] on the
    [defaultdict]: an absent speaker is first created with zeros, at the end
    of the insertion order. *)
Fixpoint add_segment (speaker : string) (d : Q)
  (stats : list (string * tally)) : list (string * tally) :=
  match stats with
  | [] => [(speaker, mkTally (0 + d) (0 + 1))]
  | (k, t) :: rest =>
      if String.eqb speaker k
      then (k, mkTally (duration t + d) (segments t + 1)) :: rest
      else (k, t) :: add_segment speaker d rest
  end.

Definition tally_segments (segs : list segment) : list (string * tally) :=
  fold_left
    (fun stats seg =>
       add_segment (seg_speaker seg) (seg_end seg - seg_start seg) stats)
    segs [].

(** [sum(s['duration'] for s in speaker_stats.values())]. *)
Definition total_duration (stats : list (string * tally)) : Q :=
  fold_left (fun acc kt => acc + duration (snd kt)) stats 0.

Definition Q_of_nat (n : nat) : Q := inject_Z (Z.of_nat n).

(** The second loop; the first failing division aborts it.  The
    durations have the kind of the time stamps; the segment count and
    [len(segments)] are Python [int]s whatever the time stamps are. *)
Fixpoint score (ts : times) (total : Q) (n : nat)
  (stats : list (string * tally)) : result (list (string * speaker_stat)) :=
  match stats with
  | [] => Ok []
  | (k, t) :: rest =>
      d_share <- py_div ts (duration t) total ;;
      c_share <- py_div PythonNumbers (Q_of_nat (segments t)) (Q_of_nat n) ;;
      rest' <- score ts total n rest ;;
      Ok ((k, mkStat (duration t) (segments t)
                (number_half (number_add d_share c_share)))
            :: rest')
  end.

Definition calculate_speaker_confidence (ts : times) (segs : list segment)
  : result (list (string * speaker_stat)) :=
  let speaker_stats := tally_segments segs in
  score ts (total_duration speaker_stats) (length segs) speaker_stats.

(** *** The "Assign speakers" stage of [main] *)

(** A word dictionary as [whisperx.assign_word_speakers] returns it; every
    key may be absent. *)
Record word_dict : Type := mkWord {
  w_speaker : option string;
  w_word : option string;
  w_text : option string;
  w_start : option Q;
  w_end : option Q
}.

(** An element of [result["word_segments"]]; [isinstance(word, dict)]
    skips the second kind. *)
Inductive entry : Type :=
| Dict (w : word_dict)
| NotDict.

(** [d.get(key, default)]. *)
Definition get {A : Type} (field : option A) (default : A) : A :=
  match field with
  | Some v => v
  | None => default
  end.

(** Truth value of a string. *)
Definition truthy (s : string) : bool :=
  match s with
  | EmptyString => false
  | _ => true
  end.

(** [a or b] on strings. *)
Definition py_or (a b : string) : string := if truthy a then a else b.

(** The dictionary appended to [grouped[speaker]]. *)
Record token : Type := mkToken {
  tok_start : Q;
  tok_end : Q;
  tok_text : string
}.

(** [grouped[speaker].append(tok)] on the [defaultdict(list)]. *)
Fixpoint append_to (speaker : string) (tok : token)
  (grouped : list (string * list token)) : list (string * list token) :=
  match grouped with
  | [] => [(speaker, [tok])]
  | (k, words) :: rest =>
      if String.eqb speaker k then (k, words ++ [tok]) :: rest
      else (k, words) :: append_to speaker tok rest
  end.

(** Body of the loop "Group words by speaker". *)
Definition group_step (grouped : list (string * list token)) (word : entry)
  : list (string * list token) :=
  match word with
  | NotDict => grouped
  | Dict w =>
      let speaker := get (w_speaker w) "SPEAKER_UNKNOWN"%string in
      let word_text := py_or (get (w_word w) ""%string)
                             (get (w_text w) ""%string) in
      if truthy word_text
      then append_to speaker
             (mkToken (get (w_start w) 0) (get (w_end w) 0) word_text) grouped
      else grouped
  end.

Definition group_words (word_segments : list entry)
  : list (string * list token) :=
  fold_left group_step word_segments [].

(** [words[-1]] of a non-empty list. *)
Definition last_token (first : token) (others : list token) : token :=
  last others first.

(** Body of the loop "Create final segments from grouped words". *)
Definition segment_of_group (final_segments : list segment)
  (kv : string * list token) : list segment :=
  let '(speaker, words) := kv in
  match words with
  | [] => final_segments
  | first :: others =>
      final_segments ++
        [ {| seg_speaker := speaker;
             seg_start := tok_start first;
             seg_end := tok_end (last_token first others);
             seg_text := String.concat " " (map tok_text words) |} ]
  end.

Definition build_segments (word_segments : list entry) : list segment :=
  fold_left segment_of_group (group_words word_segments) [].

(** The default of [max_gap]. *)
Definition default_max_gap : Q := 1.

(** What a run of the stage and of the Markdown step leaves behind. *)
Record run : Type := mkRun {
  exit_status : Z;
  markdown : option (string * list segment);  (* file written, if any *)
  caught : option exn                         (* exception the handler saw *)
}.

Section Stage.

(** The kind of the time stamps of the run. *)
Variable time_stamps : times.

(** [whisperx.assign_word_speakers], an external collaborator, seen as a
    function on the word list. *)
Variable assign_word_speakers : list entry -> list entry.

(** The [try] block of "Assign speakers" in [go_transcribe.py].  The word
    list is a list by type, so the [isinstance(..., list)] check cannot
    fail here.  The statistics are computed before the test on
    [final_segments], as in the source. *)
Definition assign_speakers (aligned : list entry)
  : result (list segment * list (string * speaker_stat)) :=
  match aligned with
  | [] => Raise (ValueError "No word_segments found in aligned transcription")
  | _ =>
      let word_segments := assign_word_speakers aligned in
      let final_segments :=
        merge_close_segments (build_segments word_segments) default_max_gap in
      speaker_stats <-
        calculate_speaker_confidence time_stamps final_segments ;;
      match final_segments with
      | [] => Raise (ValueError "No speaker segments were created")
      | _ => Ok (final_segments, speaker_stats)
      end
  end.

(** The rest of [main]: a failure of the stage is printed and ends the
    process with [sys.exit(1)]; otherwise the Markdown file is written.
    [filename.replace(".wav", ".md")] is left abstract as [output_md]. *)
Definition main (output_md : string) (aligned : list entry) : run :=
  match assign_speakers aligned with
  | Raise e => mkRun 1 None (Some e)               (* sys.exit(1) *)
  | Ok (final_segments, _) =>
      mkRun 0 (Some (output_md, final_segments)) None
  end.

(** The same block in [go_record_and_transcribe.py]: no merging, no
    scoring. *)
Definition assign_speakers_rec (aligned : list entry)
  : result (list segment) :=
  match aligned with
  | [] => Raise (ValueError "No word_segments found in aligned transcription")
  | _ =>
      let word_segments := assign_word_speakers aligned in
      let final_segments := build_segments word_segments in
      match final_segments with
      | [] => Raise (ValueError "No speaker segments were created")
      | _ => Ok final_segments
      end
  end.

Definition main_rec (output_md : string) (aligned : list entry) : run :=
  match assign_speakers_rec aligned with
  | Raise e => mkRun 1 None (Some e)
  | Ok final_segments => mkRun 0 (Some (output_md, final_segments)) None
  end.

End Stage.

End Transcribe.

(** ** Auxiliary views used in the statements *)

Module Views.

Import Transcribe.
Local Open Scope Q_scope.

(** The loop of [merge_close_segments] read as a recursion on the sorted
    list, with [cur] the accumulator [current]. *)
Fixpoint merge_from (max_gap : Q) (cur : segment) (rest : list segment)
  : list segment :=
  match rest with
  | [] => [cur]
  | s :: rest' =>
      if close max_gap cur s then merge_from max_gap (extend cur s) rest'
      else cur :: merge_from max_gap s rest'
  end.

Definition merge_sorted (max_gap : Q) (l : list segment) : list segment :=
  match l with
  | [] => []
  | cur :: rest => merge_from max_gap cur rest
  end.

Definition le_start (a b : segment) : Prop := seg_start a <= seg_start b.
Definition lt_start (a b : segment) : Prop := seg_start a < seg_start b.

(** Adjacent segments that the merging test keeps apart. *)
Definition apart (max_gap : Q) (a b : segment) : Prop :=
  close max_gap a b = false.

(** A group of input segments, first member and later members, and the
    segment that spans it. *)
Definition group : Type := (segment * list segment)%type.

Definition members (grp : group) : list segment := fst grp :: snd grp.

Definition span_of (grp : group) : segment :=
  {| seg_speaker := seg_speaker (fst grp);
     seg_start := seg_start (fst grp);
     seg_end := seg_end (last (snd grp) (fst grp));
     seg_text := String.concat " " (map seg_text (members grp)) |}.

Definition one_speaker (grp : group) : Prop :=
  Forall (fun s => seg_speaker s = seg_speaker (fst grp)) (snd grp).

(** Start values pairwise different. *)
Definition distinct_starts (l : list segment) : Prop :=
  NoDupA Qeq (map seg_start l).

(** Length of a segment and total talk time of a list of segments. *)
Definition span (s : segment) : Q := seg_end s - seg_start s.

Definition talk_time (segs : list segment) : Q :=
  fold_right (fun s acc => span s + acc) 0 segs.

Definition sumQ (l : list Q) : Q := fold_right Qplus 0 l.

Definition dur (kt : string * tally) : Q := duration (snd kt).

(** Body of the first loop of [calculate_speaker_confidence]. *)
Definition tally_step (stats : list (string * tally)) (seg : segment)
  : list (string * tally) :=
  add_segment (seg_speaker seg) (seg_end seg - seg_start seg) stats.

Definition tally_count (stats : list (string * tally)) : nat :=
  fold_right (fun kt acc => (segments (snd kt) + acc)%nat) 0%nat stats.

(** The two components of a confidence. *)
Definition duration_share (total : Q) (st : speaker_stat) : Q :=
  stat_duration st / total.

Definition count_share (n : nat) (st : speaker_stat) : Q :=
  Q_of_nat (stat_segments st) / Q_of_nat n.

Definition in_unit (q : Q) : Prop := 0 <= q /\ q <= 1.

(** The entry [score] computes from a tally when no division fails. *)
Definition scored (total : Q) (n : nat) (kt : string * tally)
  : string * speaker_stat :=
  (fst kt,
   mkStat (duration (snd kt)) (segments (snd kt))
     (Finite ((duration (snd kt) / total
               + Q_of_nat (segments (snd kt)) / Q_of_nat n) / 2))).

(** *** The segment builder *)

(** What the grouping loop keeps of one element of the word list: nothing,
    or the speaker and the token appended to the speaker's list. *)
Definition kept (word : entry) : list (string * token) :=
  match word with
  | NotDict => []
  | Dict w =>
      let word_text := py_or (get (w_word w) ""%string)
                             (get (w_text w) ""%string) in
      if truthy word_text
      then [(get (w_speaker w) "SPEAKER_UNKNOWN"%string,
             mkToken (get (w_start w) 0) (get (w_end w) 0) word_text)]
      else []
  end.

Definition kept_tokens (word_segments : list entry)
  : list (string * token) :=
  flat_map kept word_segments.

Definition no_token : token := mkToken 0 0 "".

(** The segment made of a speaker and a list of tokens: start of the first
    token, end of the last, texts joined by single spaces. *)
Definition turn (speaker : string) (words : list token) : segment :=
  {| seg_speaker := speaker;
     seg_start := tok_start (hd no_token words);
     seg_end := tok_end (last words no_token);
     seg_text := String.concat " " (map tok_text words) |}.

(** All tokens of one speaker, in order. *)
Definition spoken_by (speaker : string) (toks : list (string * token))
  : list token :=
  map snd (filter (fun st => String.eqb (fst st) speaker) toks).

(** The speakers in order of first appearance. *)
Definition first_seen (speakers : list string) : list string :=
  fold_left
    (fun seen k => if existsb (String.eqb k) seen then seen else seen ++ [k])
    speakers [].

(** One segment per speaker. *)
Definition segments_by_speaker (toks : list (string * token))
  : list segment :=
  map (fun sp => turn sp (spoken_by sp toks)) (first_seen (map fst toks)).

(** The builder in the words of the specification: maximal runs of
    consecutive tokens of one speaker, one segment per run. *)
Fixpoint runs (toks : list (string * token)) : list (string * list token) :=
  match toks with
  | [] => []
  | (sp, t) :: rest =>
      match runs rest with
      | (sp', ts) :: rs =>
          if String.eqb sp sp' then (sp', t :: ts) :: rs
          else (sp, [t]) :: (sp', ts) :: rs
      | [] => [(sp, [t])]
      end
  end.

Definition segments_of_runs (word_segments : list entry) : list segment :=
  map (fun r => turn (fst r) (snd r)) (runs (kept_tokens word_segments)).

(** [grouped[speaker].append(tok)] on a kept token. *)
Definition group_token (grouped : list (string * list token))
  (st : string * token) : list (string * list token) :=
  append_to (fst st) (snd st) grouped.

Definition groups_of (toks : list (string * token))
  : list (string * list token) :=
  map (fun sp => (sp, spoken_by sp toks)) (first_seen (map fst toks)).

End Views.

(** ** Concrete inputs *)

Module Samples.

Import Transcribe.
Local Open Scope Q_scope.
Local Open Scope string_scope.

(** Two segments of different speakers that start together. *)
Definition tie_a : segment := mkSegment "A" 0 1 "x".
Definition tie_b : segment := mkSegment "B" 0 1 "y".

(** Two segments that start apart. *)
Definition early : segment := mkSegment "A" 0 1 "x".
Definition late : segment := mkSegment "A" 2 3 "y".

(** Segments without duration. *)
Definition still : segment := mkSegment "A" 1 1 "x".
Definition pause : segment := mkSegment "B" 3 3 "y".

(** A word dictionary with all keys present. *)
Definition word (speaker text : string) (start stop : Q) : entry :=
  Dict (mkWord (Some speaker) (Some text) None (Some start) (Some stop)).

(** A speaker who talks, is interrupted, and talks again. *)
Definition interrupted : list entry :=
  [word "A" "a" 0 1; word "B" "b" 1 2; word "A" "c" 2 3].

(** A single word without duration. *)
Definition instant : list entry := [word "A" "x" 1 1].

(** The scenario of the specification. *)
Definition greeting : list entry :=
  [word "A" "Hi" 0 (5 # 10); word "A" "there" (5 # 10) (9 # 10);
   word "B" "Hello" 1 (14 # 10)].

End Samples.

(** ** The Markdown step of [go_transcribe.py] *)

Module Report.

Import Transcribe.
Local Open Scope Q_scope.

(** One "###" heading of the transcript with the text under it. *)
Record heading : Type := mkHeading {
  h_speaker : string;
  h_start : Q;
  h_end : Q;
  h_text : string;
  h_confidence : number
}.

(** [speaker_stats[speaker]] when the speaker has an entry. *)
Fixpoint lookup (speaker : string) (stats : list (string * speaker_stat))
  : option speaker_stat :=
  match stats with
  | [] => None
  | (k, st) :: rest =>
      if String.eqb speaker k then Some st else lookup speaker rest
  end.

Section Markdown.

(** [str.strip], left abstract. *)
Variable strip : string -> string.

(** The loop over [final_segments] of the Markdown step.  On a speaker
    without entry the [defaultdict] makes an entry without the key
    ['confidence'], so the subscript raises [KeyError('confidence')]; the
    headings written before stay in the file.  The result is the headings
    written and the key of the error, if any. *)
Fixpoint transcript (final_segments : list segment)
  (speaker_stats : list (string * speaker_stat))
  : list heading * option string :=
  match final_segments with
  | [] => ([], None)
  | segment :: rest =>
      match lookup (seg_speaker segment) speaker_stats with
      | None => ([], Some "confidence"%string)
      | Some st =>
          let '(written, err) := transcript rest speaker_stats in
          (mkHeading (seg_speaker segment) (seg_start segment)
             (seg_end segment) (strip (seg_text segment)) (confidence st)
             :: written, err)
      end
  end.

End Markdown.

End Report.

(** ** File names *)

Module Paths.

Local Open Scope string_scope.

(** [s.replace(old, new)] for a non-empty [old]: occurrences are replaced
    from left to right without overlap.  [skip] counts the characters of a
    replaced occurrence still to pass over. *)
Fixpoint replace_from (old new : string) (skip : nat) (s : string)
  : string :=
  match s with
  | EmptyString => EmptyString
  | String c s' =>
      match skip with
      | S k => replace_from old new k s'
      | O =>
          if String.prefix old s
          then new ++ replace_from old new (String.length old - 1) s'
          else String c (replace_from old new 0 s')
      end
  end.

Definition replace (old new s : string) : string := replace_from old new 0 s.

(** [s.endswith(suffix)]: some tail of [s] is [suffix]. *)
Fixpoint endswith (s suffix : string) : bool :=
  String.eqb s suffix
  || match s with
     | EmptyString => false
     | String _ s' => endswith s' suffix
     end.

(** [filename.replace(".wav", ".md")]. *)
Definition output_md (filename : string) : string :=
  replace ".wav" ".md" filename.

Fixpoint has_dot (s : string) : bool :=
  match s with
  | EmptyString => false
  | String c s' => Ascii.eqb c "."%char || has_dot s'
  end.

Section Validate.

(** [os.path.exists], a query of the file system. *)
Variable path_exists : string -> bool.

(** "Validate input file" in [main] of [go_transcribe.py]: the exit status
    of the failing check, if any. *)
Definition validate (input_file : string) : option Z :=
  if negb (path_exists input_file) then Some 1%Z
  else if negb (endswith input_file ".wav") then Some 1%Z
  else None.

End Validate.

End Paths.

(** ** The recorder of [test_record_merge.py], main thread *)

Module Recorder.

(** The recorder as the main thread sees it: the flag [self.recording] and
    the number of capture threads started so far. *)
Record recorder : Type := mkRecorder {
  recording : bool;
  threads : nat
}.

(** [start_recording]: the second component tells whether a list of threads
    was returned ([None] when already recording). *)
Definition start_recording (r : recorder) : recorder * bool :=
  if recording r then (r, false)
  else (mkRecorder true (S (threads r)), true).

Definition stop_recording (r : recorder) : recorder :=
  if negb (recording r) then r
  else mkRecorder false (threads r).

(** [record_for_duration].  [sleep_ok] tells whether
    [time.sleep(duration_minutes * 60)] returns: it raises on a negative,
    infinite or NaN duration, and then [stop_recording] is not reached. *)
Definition record_for_duration (sleep_ok : bool) (r : recorder) : recorder :=
  let '(r1, started) := start_recording r in
  if started then (if sleep_ok then stop_recording r1 else r1) else r1.

(** How the menu loop ends: choice 5, or the input runs out. *)
Inductive outcome : Type :=
| Exited (r : recorder)
| EndOfInput (r : recorder).

Section Menu.

(** [str.strip], left abstract, and what becomes of a duration line:
    [None] when [float] rejects it, otherwise whether the sleep returns. *)
Variable strip : string -> string.
Variable duration_of : string -> option bool.

(** The loop of [main] on the lines typed by the user.  Every exception
    of a choice is caught and printed, and the loop goes on. *)
Fixpoint main (lines : list string) (r : recorder) : outcome :=
  match lines with
  | [] => EndOfInput r
  | line :: rest =>
      let choice := strip line in
      if String.eqb choice "1" then main rest (fst (start_recording r))
      else if String.eqb choice "2" then main rest (stop_recording r)
      else if String.eqb choice "3" then
        match rest with
        | [] => EndOfInput r
        | duration :: rest' =>
            match duration_of duration with
            | Some sleep_ok => main rest' (record_for_duration sleep_ok r)
            | None => main rest' r
            end
        end
      else if String.eqb choice "4" then main rest r
      else if String.eqb choice "5" then
        Exited (if recording r then stop_recording r else r)
      else main rest r
  end.

End Menu.

End Recorder.

(** ** Further views used in the statements *)

Module MixerViews.

Import Mixer.

(** A cycle whose two chunks have the same number of samples. *)
Definition equal_lengths (c : list (list Z) * list Z) : Prop :=
  length (snd c) = length (flatten (fst c)).

(** A cycle whose mix raises. *)
Definition fails (c : list (list Z) * list Z) : Prop :=
  exists e, mix_chunk (snd c) (fst c) = Raise e.

End MixerViews.

Module MoreViews.

Import Transcribe Views.
Local Open Scope Q_scope.

(** A segment that does not end before it starts. *)
Definition well_formed (s : segment) : Prop := seg_start s <= seg_end s.

(** Two segments the loop cannot merge: other speaker, or gap too wide. *)
Definition unmergeable (max_gap : Q) (a b : segment) : Prop :=
  seg_speaker b <> seg_speaker a \/ max_gap < seg_start b - seg_end a.

(** The segments of one speaker. *)
Definition segments_of (speaker : string) (segs : list segment)
  : list segment :=
  filter (fun s => String.eqb (seg_speaker s) speaker) segs.

(** All texts of a list of segments joined by single spaces. *)
Definition joined_text (segs : list segment) : string :=
  String.concat " " (map seg_text segs).

(** The tallies of one speaker in [speaker_stats]. *)
Definition tallies_of (speaker : string) (stats : list (string * tally))
  : list (string * tally) :=
  filter (fun kt => String.eqb (fst kt) speaker) stats.

(** A word the grouping loop drops: not a dictionary, or no text under
    either key. *)
Definition dropped (w : entry) : Prop :=
  match w with
  | NotDict => True
  | Dict d =>
      py_or (get (w_word d) ""%string) (get (w_text d) ""%string)
      = ""%string
  end.

Definition tok_le (a b : string * token) : Prop :=
  tok_start (snd a) <= tok_start (snd b).

(** Tokens in time order, none ending before it starts. *)
Definition time_ordered (toks : list (string * token)) : Prop :=
  StronglySorted tok_le toks
  /\ Forall (fun st => tok_start (snd st) <= tok_end (snd st)) toks.

(** The average of the two shares of an entry of the tally. *)
Definition average_share (total : Q) (n : nat) (kt : string * tally) : Q :=
  (duration (snd kt) / total
   + Q_of_nat (segments (snd kt)) / Q_of_nat n) / 2.

(** An entry of the statistics that carries the key, the duration and the
    segment count of an entry of the tally. *)
Definition carries (kt : string * tally) (kv : string * speaker_stat)
  : Prop :=
  fst kv = fst kt
  /\ stat_duration (snd kv) = duration (snd kt)
  /\ stat_segments (snd kv) = segments (snd kt).

(** The step of [first_seen]. *)
Definition see (seen : list string) (k : string) : list string :=
  if existsb (String.eqb k) seen then seen else seen ++ [k].

End MoreViews.

(** * Properties *)

(** ** The mixer *)

Module MixerFacts.

Import Mixer.
Local Open Scope Z_scope.

Lemma wrap16_id (z : Z) : is_int16 z -> wrap16 z = z.
Proof.
  unfold is_int16, wrap16. intros H.
  rewrite Z.mod_small by lia. lia.
Qed.

Lemma wrap16_range (z : Z) : is_int16 (wrap16 z).
Proof.
  unfold is_int16, wrap16.
  pose proof (Z.mod_pos_bound (z + 32768) 65536 ltac:(lia)). lia.
Qed.

Lemma clip_id (z : Z) : is_int16 z -> clip (-32768) 32767 z = z.
Proof. unfold is_int16, clip. lia. Qed.

(** The clamp comes after the [int16] addition and so never changes
    anything: a mixed sample is the wrapped sum. *)
Lemma mix_sample_wrapped_sum (mic sys : Z) :
  mix_sample mic sys = wrap16 (mic + sys).
Proof.
  unfold mix_sample, astype_int16, int16_add.
  pose proof (wrap16_range (mic + sys)) as R.
  rewrite clip_id by exact R.
  apply wrap16_id, R.
Qed.

(** Without overflow the mixed sample is the exact sum. *)
Lemma mix_sample_exact (mic sys : Z) :
  is_int16 (mic + sys) -> mix_sample mic sys = mic + sys.
Proof.
  intros H. rewrite mix_sample_wrapped_sum. now apply wrap16_id.
Qed.

Lemma mix_sample_comm (mic sys : Z) : mix_sample mic sys = mix_sample sys mic.
Proof. rewrite !mix_sample_wrapped_sum. now rewrite Z.add_comm. Qed.

(** C2 (code defect): at full scale the code wraps.  Two full-scale positive
    samples mix to -2 and two full-scale negative samples to 0, where
    saturation would give 32767 and -32768. *)
Theorem mix_sample_full_scale_wraps :
  mix_sample 32767 32767 = -2 /\ mix_sample (-32768) (-32768) = 0.
Proof. split; reflexivity. Qed.

Lemma zip_with_length (f : Z -> Z -> Z) (xs ys : list Z) :
  length xs = length ys -> length (zip_with f xs ys) = length xs.
Proof.
  revert ys. induction xs as [|x xs IH]; intros [|y ys] H; simpl in *;
    try discriminate; auto.
Qed.

Lemma broadcast_equal (f : Z -> Z -> Z) (xs ys : list Z) :
  length xs = length ys -> broadcast f xs ys = Ok (zip_with f xs ys).
Proof.
  intros H. unfold broadcast. rewrite H, Nat.eqb_refl. reflexivity.
Qed.

Lemma broadcast_mismatch (f : Z -> Z -> Z) (xs ys : list Z) :
  length xs <> length ys -> length xs <> 1%nat -> length ys <> 1%nat ->
  broadcast f xs ys = Raise (ShapeError (length xs) (length ys)).
Proof.
  intros Hne Hx Hy. unfold broadcast.
  destruct (Nat.eqb_spec (length xs) (length ys)) as [E|_]; [contradiction|].
  destruct xs as [|x [|x' xs]]; simpl in *; try congruence;
    destruct ys as [|y [|y' ys]]; simpl in *; congruence.
Qed.

(** C4 (counterexample): a two-sample microphone chunk and a three-sample
    system chunk do not mix to a two-sample chunk; the sum raises. *)
Lemma mix_chunk_unequal_fails :
  ~ (exists mixed,
        mix_chunk [1; 2] [[1]; [2]; [3]] = Ok mixed
        /\ length mixed = Nat.min 2 3).
Proof. intros [mixed [H _]]. discriminate H. Qed.

(** C4 (amended): the mixer does not truncate.  Chunks of equal length mix
    to a chunk of that length; chunks of different lengths, neither of
    length one, make the sum raise a shape error. *)
Theorem mix_chunk_lengths (mic_data : list Z) (sys_data : list (list Z)) :
  (length mic_data = length (flatten sys_data) ->
   exists mixed, mix_chunk mic_data sys_data = Ok mixed
                 /\ length mixed = length mic_data)
  /\
  (length mic_data <> length (flatten sys_data) ->
   length mic_data <> 1%nat -> length (flatten sys_data) <> 1%nat ->
   mix_chunk mic_data sys_data
   = Raise (ShapeError (length mic_data) (length (flatten sys_data)))).
Proof.
  split.
  - intros H. unfold mix_chunk. rewrite broadcast_equal by exact H. simpl.
    eexists. split; [reflexivity|].
    rewrite length_map. now apply zip_with_length.
  - intros Hne H1 H2. unfold mix_chunk.
    rewrite broadcast_mismatch by assumption. reflexivity.
Qed.

Lemma mix_chunk_lengths_witness :
  (exists mixed, mix_chunk [1; 2] [[3]; [4]] = Ok mixed
                 /\ length mixed = 2%nat)
  /\ mix_chunk [1; 2] [[1]; [2]; [3]] = Raise (ShapeError 2 3).
Proof.
  split.
  - apply (proj1 (mix_chunk_lengths [1; 2] [[3]; [4]])). reflexivity.
  - apply (proj2 (mix_chunk_lengths [1; 2] [[1]; [2]; [3]]));
      simpl; discriminate.
Defined.

(** A cycle whose sum raises ends the capture: nothing is saved. *)
Lemma capture_aborts_on_mismatch
  (sys_data : list (list Z)) (mic_data : list Z)
  (rest : list (list (list Z) * list Z)) (e : exn) :
  mix_chunk mic_data sys_data = Raise e ->
  record_combined_audio ((sys_data, mic_data) :: rest)
  = mkCapture None (Some e).
Proof.
  intros H. unfold record_combined_audio. simpl. rewrite H. reflexivity.
Qed.

End MixerFacts.

(** ** Sorting by start *)

Module SortFacts.

Import Transcribe Views.
Local Open Scope Q_scope.

Lemma le_start_trans (a b c : segment) :
  le_start a b -> le_start b c -> le_start a c.
Proof. unfold le_start. apply Qle_trans. Qed.

Lemma insert_by_start_perm (s : segment) (l : list segment) :
  Permutation (s :: l) (insert_by_start s l).
Proof.
  induction l as [|h t IH]; simpl.
  - apply Permutation_refl.
  - destruct (Qle_bool (seg_start s) (seg_start h)).
    + apply Permutation_refl.
    + eapply perm_trans; [apply perm_swap|]. now apply perm_skip.
Qed.

Lemma sorted_by_start_perm (l : list segment) :
  Permutation l (sorted_by_start l).
Proof.
  induction l as [|s t IH]; simpl.
  - apply perm_nil.
  - eapply perm_trans; [|apply insert_by_start_perm]. now apply perm_skip.
Qed.

Lemma insert_by_start_hd (a s : segment) (l : list segment) :
  le_start a s -> HdRel le_start a l -> HdRel le_start a (insert_by_start s l).
Proof.
  intros Has Hl. destruct l as [|h t]; simpl.
  - now constructor.
  - destruct (Qle_bool (seg_start s) (seg_start h)); constructor.
    + exact Has.
    + now apply HdRel_inv in Hl.
Qed.

Lemma insert_by_start_sorted (s : segment) (l : list segment) :
  Sorted le_start l -> Sorted le_start (insert_by_start s l).
Proof.
  induction l as [|h t IH]; intros Hl; simpl.
  - repeat constructor.
  - destruct (Qle_bool (seg_start s) (seg_start h)) eqn:E.
    + constructor; [exact Hl|]. constructor.
      now apply Qle_bool_iff.
    + apply Sorted_inv in Hl as [Ht Hh].
      constructor; [now apply IH|].
      apply insert_by_start_hd; [|exact Hh].
      unfold le_start. apply Qlt_le_weak, Qnot_le_lt.
      intros C. apply Qle_bool_iff in C. congruence.
Qed.

Lemma sorted_by_start_sorted (l : list segment) :
  Sorted le_start (sorted_by_start l).
Proof.
  induction l as [|s t IH]; simpl.
  - constructor.
  - now apply insert_by_start_sorted.
Qed.

(** Sorting a sorted list leaves it as it is (the sort is stable). *)
Lemma sorted_by_start_fix (l : list segment) :
  Sorted le_start l -> sorted_by_start l = l.
Proof.
  induction l as [|s t IH]; intros Hl; simpl; [reflexivity|].
  apply Sorted_inv in Hl as [Ht Hh]. rewrite IH by exact Ht.
  destruct t as [|h t']; simpl; [reflexivity|].
  apply HdRel_inv in Hh. unfold le_start in Hh.
  apply Qle_bool_iff in Hh. now rewrite Hh.
Qed.

Lemma strongly_sorted_le (l : list segment) :
  Sorted le_start l -> StronglySorted le_start l.
Proof.
  apply Sorted_StronglySorted. intros a b c. apply le_start_trans.
Qed.

(** With pairwise different keys a sorted list is strictly sorted. *)
Lemma strongly_sorted_lt (l : list segment) :
  StronglySorted le_start l -> distinct_starts l ->
  StronglySorted lt_start l.
Proof.
  unfold distinct_starts.
  induction l as [|a t IH]; intros Hs Hd; simpl in *; constructor.
  - apply IH.
    + now apply StronglySorted_inv in Hs.
    + now inversion Hd.
  - apply StronglySorted_inv in Hs as [_ Hall].
    inversion Hd as [|x xs Hnin _]; subst.
    rewrite Forall_forall in *. intros x Hx.
    destruct (Qle_lt_or_eq _ _ (Hall x Hx)) as [Hlt|Heq]; [exact Hlt|].
    exfalso. apply Hnin. apply InA_alt.
    exists (seg_start x). split; [exact Heq|]. now apply in_map.
Qed.

(** A strictly sorted list is the only sorted arrangement of its
    elements. *)
Lemma sorted_perm_unique (l1 l2 : list segment) :
  StronglySorted lt_start l1 -> StronglySorted le_start l2 ->
  Permutation l1 l2 -> l1 = l2.
Proof.
  revert l2. induction l1 as [|a t1 IH]; intros l2 H1 H2 HP.
  - apply Permutation_nil in HP. now subst.
  - destruct l2 as [|b t2].
    + apply Permutation_sym, Permutation_nil in HP. discriminate.
    + apply StronglySorted_inv in H1 as [H1t H1a].
      apply StronglySorted_inv in H2 as [H2t H2b].
      rewrite Forall_forall in H1a, H2b.
      assert (a = b) as ->.
      { assert (In a (b :: t2)) as Ia
          by (eapply Permutation_in; [exact HP|now left]).
        assert (In b (a :: t1)) as Ib
          by (eapply Permutation_in;
              [apply Permutation_sym; exact HP|now left]).
        destruct Ia as [E|Ia]; [now symmetry|].
        destruct Ib as [E|Ib]; [exact E|].
        exfalso. specialize (H1a b Ib). specialize (H2b a Ia).
        unfold lt_start, le_start in *.
        exact (Qlt_not_le _ _ H1a H2b). }
      f_equal. apply IH; try assumption.
      now apply Permutation_cons_inv in HP.
Qed.

Lemma distinct_starts_perm (l1 l2 : list segment) :
  Permutation l1 l2 -> distinct_starts l1 -> distinct_starts l2.
Proof.
  unfold distinct_starts. intros HP Hd.
  apply (PermutationA_preserves_NoDupA Q_Setoid) with (map seg_start l1);
    [|exact Hd].
  apply (Permutation_PermutationA Q_Setoid).
  now apply Permutation_map.
Qed.

(** Sorting lists with the same elements and pairwise different keys gives
    the same list. *)
Lemma sorted_by_start_perm_eq (l1 l2 : list segment) :
  Permutation l1 l2 -> distinct_starts l1 ->
  sorted_by_start l2 = sorted_by_start l1.
Proof.
  intros HP Hd. symmetry. apply sorted_perm_unique.
  - apply strongly_sorted_lt.
    + apply strongly_sorted_le, sorted_by_start_sorted.
    + eapply distinct_starts_perm; [apply sorted_by_start_perm|exact Hd].
  - apply strongly_sorted_le, sorted_by_start_sorted.
  - eapply perm_trans; [apply Permutation_sym, sorted_by_start_perm|].
    eapply perm_trans; [exact HP|apply sorted_by_start_perm].
Qed.

End SortFacts.

(** ** [merge_close_segments] *)

Module MergeFacts.

Import Transcribe Views SortFacts.
Local Open Scope Q_scope.

(** The loop and its recursive reading agree. *)
Lemma merge_loop_from (g : Q) (rest : list segment) :
  forall (merged : list segment) (cur : segment),
  exists m c,
    fold_left (merge_step g) rest (merged, Some cur) = (m, Some c)
    /\ m ++ [c] = merged ++ merge_from g cur rest.
Proof.
  induction rest as [|s rest IH]; intros merged cur; simpl.
  - now exists merged, cur.
  - destruct (close g cur s).
    + apply IH.
    + destruct (IH (merged ++ [cur]) s) as [m [c [Hf Hm]]].
      exists m, c. split; [exact Hf|].
      rewrite Hm, <- app_assoc. reflexivity.
Qed.

Lemma merge_close_segments_sorted (S : list segment) (g : Q) :
  merge_close_segments S g = merge_sorted g (sorted_by_start S).
Proof.
  unfold merge_close_segments.
  destruct (sorted_by_start S) as [|cur rest]; simpl; [reflexivity|].
  destruct (merge_loop_from g rest [] cur) as [m [c [Hf Hm]]].
  rewrite Hf. exact Hm.
Qed.

(** The first segment produced from [cur] keeps its start and speaker. *)
Lemma merge_from_head (g : Q) (rest : list segment) :
  forall cur, exists h t,
    merge_from g cur rest = h :: t
    /\ seg_start h = seg_start cur /\ seg_speaker h = seg_speaker cur.
Proof.
  induction rest as [|s rest IH]; intros cur; simpl.
  - now exists cur, [].
  - destruct (close g cur s).
    + destruct (IH (extend cur s)) as [h [t [E [H1 H2]]]].
      now exists h, t.
    + now exists cur, (merge_from g s rest).
Qed.

Lemma close_head (g : Q) (cur s h : segment) :
  seg_start h = seg_start s -> seg_speaker h = seg_speaker s ->
  close g cur h = close g cur s.
Proof. unfold close. now intros -> ->. Qed.

(** The output is sorted by start. *)
Lemma merge_from_sorted (g : Q) (rest : list segment) :
  forall cur, Sorted le_start (cur :: rest) ->
              Sorted le_start (merge_from g cur rest).
Proof.
  induction rest as [|s rest IH]; intros cur Hs; simpl.
  - exact Hs.
  - apply Sorted_inv in Hs as [Hrest Hcur]. apply HdRel_inv in Hcur.
    destruct (close g cur s).
    + apply IH. apply Sorted_inv in Hrest as [Hr Hsr].
      constructor; [exact Hr|].
      destruct rest as [|r rest']; constructor.
      apply HdRel_inv in Hsr. unfold le_start in *. simpl.
      eapply Qle_trans; eassumption.
    + constructor; [now apply IH|].
      destruct (merge_from_head g rest s) as [h [t [E [H1 _]]]].
      rewrite E. constructor. unfold le_start in *. now rewrite H1.
Qed.

(** No two adjacent output segments pass the merging test. *)
Lemma merge_from_apart (g : Q) (rest : list segment) :
  forall cur, Sorted (apart g) (merge_from g cur rest).
Proof.
  induction rest as [|s rest IH]; intros cur; simpl.
  - repeat constructor.
  - destruct (close g cur s) eqn:C.
    + apply IH.
    + constructor; [apply IH|].
      destruct (merge_from_head g rest s) as [h [t [E [H1 H2]]]].
      rewrite E. constructor. unfold apart.
      now rewrite (close_head g cur s h H1 H2).
Qed.

(** On such a list the loop changes nothing. *)
Lemma merge_sorted_fix (g : Q) (l : list segment) :
  Sorted (apart g) l -> merge_sorted g l = l.
Proof.
  destruct l as [|cur rest]; [reflexivity|]. simpl.
  revert cur. induction rest as [|s rest IH]; intros cur Hs; simpl.
  - reflexivity.
  - apply Sorted_inv in Hs as [Hrest Hcur]. apply HdRel_inv in Hcur.
    unfold apart in Hcur. rewrite Hcur. f_equal. now apply IH.
Qed.

Lemma merge_sorted_sorted (g : Q) (l : list segment) :
  Sorted le_start l -> Sorted le_start (merge_sorted g l).
Proof.
  destruct l as [|cur rest]; simpl; [constructor|apply merge_from_sorted].
Qed.

Lemma merge_sorted_apart (g : Q) (l : list segment) :
  Sorted (apart g) (merge_sorted g l).
Proof.
  destruct l as [|cur rest]; simpl; [constructor|apply merge_from_apart].
Qed.

(** The output of [merge_close_segments] is sorted by start. *)
Lemma merge_close_segments_is_sorted (S : list segment) (g : Q) :
  Sorted le_start (merge_close_segments S g).
Proof.
  rewrite merge_close_segments_sorted.
  apply merge_sorted_sorted, sorted_by_start_sorted.
Qed.

(** C5: merging is idempotent.  Merging the output of
    [merge_close_segments] again with the same gap returns the identical
    list. *)
Theorem merge_close_segments_idempotent (S : list segment) (g : Q) :
  merge_close_segments (merge_close_segments S g) g
  = merge_close_segments S g.
Proof.
  rewrite (merge_close_segments_sorted (merge_close_segments S g)).
  rewrite sorted_by_start_fix by apply merge_close_segments_is_sorted.
  apply merge_sorted_fix.
  rewrite merge_close_segments_sorted. apply merge_sorted_apart.
Qed.

Lemma string_app_assoc (a b c : string) :
  ((a ++ b) ++ c = a ++ (b ++ c))%string.
Proof. induction a as [|x a IH]; simpl; [reflexivity|now rewrite IH]. Qed.

Lemma last_default {A : Type} (x : A) (l : list A) (d d' : A) :
  last (x :: l) d = last (x :: l) d'.
Proof.
  revert x. induction l as [|y l IH]; intros x; [reflexivity|].
  change (last (y :: l) d = last (y :: l) d'). apply IH.
Qed.

(** Repeated extension builds the span of the group. *)
Lemma fold_extend_span (others : list segment) :
  forall first, fold_left extend others first = span_of (first, others).
Proof.
  induction others as [|s o IH]; intros first.
  - now destruct first.
  - simpl fold_left. rewrite IH. unfold span_of, members. simpl fst. simpl snd.
    f_equal.
    + destruct o as [|c o']; [reflexivity|].
      change (last (s :: c :: o') first) with (last (c :: o') first).
      f_equal. apply last_default.
    + destruct o as [|c o']; [reflexivity|].
      simpl. now rewrite string_app_assoc.
Qed.

(** The output of the loop, group by group: [acc] holds the segments
    already absorbed by the accumulator. *)
Lemma merge_from_groups (g : Q) (rest : list segment) :
  forall (first : segment) (acc : list segment),
    Forall (fun s => seg_speaker s = seg_speaker first) acc ->
    exists groups : list group,
      concat (map members groups) = first :: acc ++ rest
      /\ merge_from g (fold_left extend acc first) rest = map span_of groups
      /\ Forall one_speaker groups.
Proof.
  induction rest as [|s rest IH]; intros first acc Hacc.
  - exists [(first, acc)]. simpl. rewrite !app_nil_r.
    split; [reflexivity|]. split.
    + now rewrite fold_extend_span.
    + now repeat constructor.
  - simpl merge_from. destruct (close g (fold_left extend acc first) s) eqn:C.
    + destruct (IH first (acc ++ [s])) as [groups [Hc [Hm Hs]]].
      * apply Forall_app. split; [exact Hacc|]. constructor; [|constructor].
        unfold close in C. apply andb_true_iff in C as [_ C].
        apply String.eqb_eq in C. rewrite C, fold_extend_span. reflexivity.
      * exists groups. rewrite <- app_assoc in Hc.
        rewrite fold_left_app in Hm. now repeat split.
    + destruct (IH s []) as [groups [Hc [Hm Hs]]]; [constructor|].
      exists ((first, acc) :: groups). simpl. rewrite Hc.
      split; [reflexivity|]. split.
      * now rewrite fold_extend_span, <- Hm.
      * now constructor.
Qed.

(** C8: segments of different speakers are never merged, whatever the gap.
    The sorted input splits into consecutive groups, each of one speaker,
    and the output is, group by group, the segment spanning the group:
    speaker and start of its first member, end of its last member, texts
    joined by single spaces. *)
Theorem merge_close_segments_one_speaker (S : list segment) (g : Q) :
  exists groups : list group,
    concat (map members groups) = sorted_by_start S
    /\ Permutation (concat (map members groups)) S
    /\ merge_close_segments S g = map span_of groups
    /\ Forall one_speaker groups.
Proof.
  rewrite merge_close_segments_sorted.
  pose proof (sorted_by_start_perm S) as HP.
  destruct (sorted_by_start S) as [|cur rest].
  - exists []. simpl. repeat split; [now apply Permutation_sym|constructor].
  - destruct (merge_from_groups g rest cur []) as [groups [Hc [Hm Hs]]];
      [constructor|].
    exists groups. rewrite Hc. simpl in *.
    repeat split; [now apply Permutation_sym|exact Hm|exact Hs].
Qed.

(** Two segments of different speakers stay two segments. *)
Lemma different_speakers_stay_apart (a b : segment) (g : Q) :
  seg_speaker a <> seg_speaker b ->
  length (merge_close_segments [a; b] g) = 2%nat.
Proof.
  intros Hne. rewrite merge_close_segments_sorted. simpl.
  assert (close g a b = false /\ close g b a = false) as [Cab Cba].
  { unfold close. split; apply andb_false_iff; right;
      apply String.eqb_neq; congruence. }
  destruct (Qle_bool (seg_start a) (seg_start b)); simpl;
    [rewrite Cab|rewrite Cba]; reflexivity.
Qed.

(** C10 (counterexample): with equal starts the order of the input shows in
    the output, since the sort is stable. *)
Lemma merge_close_segments_order_matters :
  ~ (forall (S P : list segment) (g : Q),
        Permutation S P ->
        merge_close_segments P g = merge_close_segments S g).
Proof.
  intros H.
  specialize (H [Samples.tie_a; Samples.tie_b] [Samples.tie_b; Samples.tie_a]
                1 (perm_swap _ _ _)).
  vm_compute in H. discriminate H.
Qed.

(** C10 (amended): for a list whose start values are pairwise different,
    [merge_close_segments] gives the same result on every permutation of
    the list. *)
Theorem merge_close_segments_perm (S P : list segment) (g : Q) :
  Permutation S P -> distinct_starts S ->
  merge_close_segments P g = merge_close_segments S g.
Proof.
  intros HP Hd. rewrite !merge_close_segments_sorted.
  now rewrite (sorted_by_start_perm_eq S P HP Hd).
Qed.

Lemma merge_close_segments_perm_witness :
  merge_close_segments [Samples.late; Samples.early] 1
  = merge_close_segments [Samples.early; Samples.late] 1.
Proof.
  apply merge_close_segments_perm.
  - apply perm_swap.
  - unfold distinct_starts. simpl. constructor.
    + intros H. inversion H as [? ? E|? ? E]; subst.
      * vm_compute in E. discriminate E.
      * inversion E.
    + constructor; [|constructor]. intros H. inversion H.
Defined.

End MergeFacts.

(** ** [calculate_speaker_confidence] *)

Module ScoreFacts.

Import Transcribe Views.
Local Open Scope Q_scope.

Lemma total_duration_acc (stats : list (string * tally)) :
  forall a,
    fold_left (fun acc kt => acc + duration (snd kt)) stats a
    == a + sumQ (map dur stats).
Proof.
  induction stats as [|kt rest IH]; intros a; simpl.
  - ring.
  - rewrite IH. unfold dur. ring.
Qed.

Lemma total_duration_sum (stats : list (string * tally)) :
  total_duration stats == sumQ (map dur stats).
Proof. unfold total_duration. rewrite total_duration_acc. ring. Qed.

Lemma add_segment_sum (k : string) (d : Q) (stats : list (string * tally)) :
  sumQ (map dur (add_segment k d stats)) == sumQ (map dur stats) + d.
Proof.
  induction stats as [|[k' t] rest IH]; simpl.
  - unfold dur. simpl. ring.
  - destruct (String.eqb k k'); simpl.
    + unfold dur. simpl. ring.
    + rewrite IH. ring.
Qed.

Lemma add_segment_count (k : string) (d : Q)
  (stats : list (string * tally)) :
  tally_count (add_segment k d stats) = (tally_count stats + 1)%nat.
Proof.
  induction stats as [|[k' t] rest IH]; simpl; [reflexivity|].
  destruct (String.eqb k k'); simpl; [|rewrite IH]; lia.
Qed.

Lemma add_segment_nonneg (k : string) (d : Q)
  (stats : list (string * tally)) :
  0 <= d -> Forall (fun kt => 0 <= dur kt) stats ->
  Forall (fun kt => 0 <= dur kt) (add_segment k d stats).
Proof.
  intros Hd. induction stats as [|[k' t] rest IH]; intros Hs; simpl.
  - constructor; [|constructor]. unfold dur. simpl. lra.
  - inversion Hs as [|? ? Hh Ht]; subst.
    destruct (String.eqb k k'); constructor; auto.
    unfold dur in *. simpl in *. lra.
Qed.

Lemma tally_fold_sum (segs : list segment) :
  forall stats,
    sumQ (map dur (fold_left tally_step segs stats))
    == sumQ (map dur stats) + talk_time segs.
Proof.
  induction segs as [|s segs IH]; intros stats; cbn [fold_left].
  - unfold talk_time. simpl. ring.
  - change (talk_time (s :: segs)) with (span s + talk_time segs).
    rewrite IH. unfold tally_step. rewrite add_segment_sum.
    fold (span s). ring.
Qed.

Lemma tally_fold_count (segs : list segment) :
  forall stats,
    tally_count (fold_left tally_step segs stats)
    = (tally_count stats + length segs)%nat.
Proof.
  induction segs as [|s segs IH]; intros stats; cbn [fold_left length].
  - lia.
  - rewrite IH. unfold tally_step. rewrite add_segment_count. lia.
Qed.

Lemma tally_fold_nonneg (segs : list segment) :
  Forall (fun s => seg_start s <= seg_end s) segs ->
  forall stats,
    Forall (fun kt => 0 <= dur kt) stats ->
    Forall (fun kt => 0 <= dur kt) (fold_left tally_step segs stats).
Proof.
  induction 1 as [|s segs Hs _ IH]; intros stats Hst; simpl.
  - exact Hst.
  - apply IH. apply add_segment_nonneg; [lra|exact Hst].
Qed.

Lemma tally_fold_nonempty (segs : list segment) :
  forall stats, stats <> [] -> fold_left tally_step segs stats <> [].
Proof.
  induction segs as [|s segs IH]; intros stats Hne; simpl; [exact Hne|].
  apply IH. unfold tally_step.
  destruct stats as [|[k t] rest]; simpl; [discriminate|].
  destruct (String.eqb (seg_speaker s) k); discriminate.
Qed.

(** The statistics of the first loop against the input. *)
Lemma tally_segments_total (segs : list segment) :
  total_duration (tally_segments segs) == talk_time segs.
Proof.
  rewrite total_duration_sum.
  change (tally_segments segs) with (fold_left tally_step segs []).
  rewrite tally_fold_sum. simpl. ring.
Qed.

Lemma tally_segments_count (segs : list segment) :
  tally_count (tally_segments segs) = length segs.
Proof.
  change (tally_segments segs) with (fold_left tally_step segs []).
  now rewrite tally_fold_count.
Qed.

Lemma tally_segments_nonempty (segs : list segment) :
  segs <> [] -> tally_segments segs <> [].
Proof.
  destruct segs as [|s segs]; [congruence|]. intros _.
  change (tally_segments (s :: segs))
    with (fold_left tally_step segs (tally_step [] s)).
  apply tally_fold_nonempty. discriminate.
Qed.

Lemma Q_of_nat_nonzero (n : nat) :
  n <> 0%nat -> Qeq_bool (Q_of_nat n) 0 = false.
Proof.
  intros Hn. destruct (Qeq_bool (Q_of_nat n) 0) eqn:E; [|reflexivity].
  apply Qeq_bool_iff in E. unfold Qeq, Q_of_nat in E. simpl in E. lia.
Qed.

Lemma Q_of_nat_le (a b : nat) : (a <= b)%nat -> Q_of_nat a <= Q_of_nat b.
Proof. intros H. unfold Q_of_nat. rewrite <- Zle_Qle. lia. Qed.

Lemma Q_of_nat_pos (n : nat) : n <> 0%nat -> 0 < Q_of_nat n.
Proof.
  intros H. unfold Q_of_nat. change 0 with (inject_Z 0).
  rewrite <- Zlt_Qlt. lia.
Qed.

(** When neither divisor is zero the second loop succeeds on every
    speaker. *)
Lemma score_ok (ts : times) (total : Q) (n : nat)
  (stats : list (string * tally)) :
  Qeq_bool total 0 = false -> n <> 0%nat ->
  score ts total n stats = Ok (map (scored total n) stats).
Proof.
  intros Ht Hn. induction stats as [|[k t] rest IH]; simpl; [reflexivity|].
  unfold py_div. rewrite Ht, (Q_of_nat_nonzero n Hn). simpl.
  rewrite IH. reflexivity.
Qed.

(** On Python numbers, with a zero total the first division of the loop
    raises. *)
Lemma score_zero (total : Q) (n : nat) (stats : list (string * tally)) :
  Qeq_bool total 0 = true -> stats <> [] ->
  score PythonNumbers total n stats = Raise ZeroDivisionError.
Proof.
  intros Ht Hne. destruct stats as [|[k t] rest]; [congruence|].
  simpl. unfold py_div. now rewrite Ht.
Qed.

(** The quotient numpy gives on a zero divisor. *)
Lemma numpy_zero_divisor (a b : Q) :
  Qeq_bool b 0 = true ->
  exists x, py_div NumpyScalars a b = Ok x /\ forall q, x <> Finite q.
Proof.
  intros Hb. unfold py_div. rewrite Hb.
  eexists. split; [reflexivity|].
  intros q. destruct (Qeq_bool a 0); [discriminate|].
  destruct (Qle_bool 0 a); discriminate.
Qed.

Lemma not_finite_average (x : number) (c : Q) :
  (forall q, x <> Finite q) ->
  forall q, number_half (number_add x (Finite c)) <> Finite q.
Proof.
  intros Hx q. destruct x as [a| | |]; simpl; try discriminate.
  now destruct (Hx a).
Qed.

(** On numpy scalars the loop never raises; with a zero total every
    confidence it stores is [nan] or an infinity. *)
Lemma score_numpy (total : Q) (n : nat) (stats : list (string * tally)) :
  n <> 0%nat ->
  exists r, score NumpyScalars total n stats = Ok r
            /\ length r = length stats
            /\ (Qeq_bool total 0 = true ->
                Forall (fun kv => forall q, confidence (snd kv) <> Finite q)
                  r).
Proof.
  intros Hn. destruct (Qeq_bool total 0) eqn:Ht.
  - induction stats as [|[k t] rest IH].
    + exists []. repeat split. constructor.
    + destruct IH as [r [Hr [Hl Hf]]].
      destruct (numpy_zero_divisor (duration t) total Ht) as [x [Hx Hnf]].
      simpl. rewrite Hx. unfold py_div at 1.
      rewrite (Q_of_nat_nonzero n Hn). simpl. rewrite Hr. simpl.
      eexists. split; [reflexivity|]. split; [simpl; now rewrite Hl|].
      intros _. constructor; [|now apply Hf].
      simpl. now apply not_finite_average.
  - exists (map (scored total n) stats).
    split; [now apply score_ok|]. split; [apply length_map|discriminate].
Qed.

Lemma sumQ_div (total : Q) (l : list (string * tally)) :
  sumQ (map (fun kt => dur kt / total) l) == sumQ (map dur l) / total.
Proof.
  induction l as [|kt l IH]; simpl.
  - unfold Qdiv. ring.
  - rewrite IH. unfold Qdiv. ring.
Qed.

Lemma sumQ_nonneg (l : list (string * tally)) :
  Forall (fun kt => 0 <= dur kt) l -> 0 <= sumQ (map dur l).
Proof. induction 1; simpl; lra. Qed.

Lemma dur_le_sum (l : list (string * tally)) (kt : string * tally) :
  Forall (fun kt => 0 <= dur kt) l -> In kt l ->
  dur kt <= sumQ (map dur l).
Proof.
  induction 1 as [|x l Hx Hl IH]; intros Hin; [contradiction|].
  pose proof (sumQ_nonneg l Hl). simpl.
  destruct Hin as [->|Hin]; [lra|]. specialize (IH Hin). lra.
Qed.

Lemma segments_le_count (l : list (string * tally)) (kt : string * tally) :
  In kt l -> (segments (snd kt) <= tally_count l)%nat.
Proof.
  induction l as [|x l IH]; intros Hin; [contradiction|]. simpl.
  destruct Hin as [->|Hin]; [lia|]. specialize (IH Hin). lia.
Qed.

Lemma in_unit_div (a b : Q) : 0 <= a -> a <= b -> 0 < b -> in_unit (a / b).
Proof.
  intros H0 Hab Hb. split.
  - apply Qle_shift_div_l; [exact Hb|lra].
  - apply Qle_shift_div_r; [exact Hb|lra].
Qed.

(** C3 (counterexample): on Python numbers one segment without duration
    makes the scorer fail with the division error itself. *)
Lemma calculate_speaker_confidence_division_fault :
  calculate_speaker_confidence PythonNumbers [Samples.still]
  = Raise ZeroDivisionError.
Proof. reflexivity. Qed.

(** On Python numbers, on a non-empty list whose total duration is zero
    the first division of the second loop raises. *)
Lemma calculate_zero_total (segs : list segment) :
  segs <> [] -> talk_time segs == 0 ->
  calculate_speaker_confidence PythonNumbers segs = Raise ZeroDivisionError.
Proof.
  intros Hne Hz. unfold calculate_speaker_confidence. apply score_zero.
  - apply Qeq_bool_iff. now rewrite tally_segments_total.
  - now apply tally_segments_nonempty.
Qed.

(** On a non-empty list of segments with start <= end and positive total
    duration the scorer succeeds whatever the kind of the time stamps, with
    the entries [scored] gives; the duration shares sum to 1, and in every
    entry both shares and their average lie in [0,1]. *)
Lemma scored_shares (ts : times) (segs : list segment) :
  segs <> [] ->
  Forall (fun s => seg_start s <= seg_end s) segs ->
  0 < talk_time segs ->
  exists stats : list (string * speaker_stat),
    calculate_speaker_confidence ts segs = Ok stats
    /\ sumQ (map (fun kv => duration_share (talk_time segs) (snd kv)) stats)
       == 1
    /\ Forall
         (fun kv =>
            exists q,
              confidence (snd kv) = Finite q
              /\ q == (duration_share (talk_time segs) (snd kv)
                       + count_share (length segs) (snd kv)) / 2
              /\ in_unit (duration_share (talk_time segs) (snd kv))
              /\ in_unit (count_share (length segs) (snd kv))
              /\ in_unit q)
         stats.
Proof.
  intros Hne Hord Hpos.
  pose proof (tally_segments_total segs) as Htot.
  assert (length segs <> 0%nat) as Hn by (destruct segs; simpl; congruence).
  assert (Qeq_bool (total_duration (tally_segments segs)) 0 = false) as Hb.
  { destruct (Qeq_bool _ 0) eqn:E; [|reflexivity].
    apply Qeq_bool_iff in E. lra. }
  assert (Forall (fun kt => 0 <= dur kt) (tally_segments segs)) as Hnn.
  { change (tally_segments segs) with (fold_left tally_step segs []).
    apply tally_fold_nonneg; [exact Hord|constructor]. }
  exists (map (scored (total_duration (tally_segments segs)) (length segs))
            (tally_segments segs)).
  split; [|split].
  - unfold calculate_speaker_confidence. now apply score_ok.
  - rewrite map_map. unfold duration_share, scored. simpl.
    change (fun x : string * tally => duration (snd x) / talk_time segs)
      with (fun kt : string * tally => dur kt / talk_time segs).
    rewrite sumQ_div, <- total_duration_sum, Htot. field. lra.
  - apply Forall_forall. intros kv Hin.
    apply in_map_iff in Hin as [kt [<- Hin]].
    pose proof (dur_le_sum _ kt Hnn Hin) as Hle.
    rewrite <- total_duration_sum, Htot in Hle.
    rewrite Forall_forall in Hnn. specialize (Hnn kt Hin).
    pose proof (segments_le_count _ kt Hin) as Hc.
    rewrite tally_segments_count in Hc.
    unfold duration_share, count_share, scored. simpl. unfold dur in *.
    eexists. split; [reflexivity|].
    assert (in_unit (duration (snd kt) / talk_time segs)) as Hd
      by now apply in_unit_div.
    assert (in_unit (Q_of_nat (segments (snd kt)) / Q_of_nat (length segs)))
      as Hs.
    { apply in_unit_div.
      - change 0 with (Q_of_nat 0). apply Q_of_nat_le. lia.
      - now apply Q_of_nat_le.
      - now apply Q_of_nat_pos. }
    assert (duration (snd kt) / total_duration (tally_segments segs)
            == duration (snd kt) / talk_time segs) as Hq
      by now rewrite Htot.
    revert Hd Hs Hq.
    generalize (duration (snd kt) / talk_time segs) as x.
    generalize (Q_of_nat (segments (snd kt)) / Q_of_nat (length segs)) as y.
    generalize (duration (snd kt) / total_duration (tally_segments segs))
      as x'.
    unfold in_unit. intros x' y x [Hx0 Hx1] [Hy0 Hy1] Hq.
    repeat split; try assumption; rewrite Hq.
    + reflexivity.
    + apply Qle_shift_div_l; lra.
    + apply Qle_shift_div_r; lra.
Qed.

End ScoreFacts.

(** ** The segment builder *)

Module BuildFacts.

Import Transcribe Views.
Local Open Scope Q_scope.

Lemma group_step_kept (grouped : list (string * list token)) (w : entry) :
  group_step grouped w = fold_left group_token (kept w) grouped.
Proof.
  destruct w as [w|]; simpl; [|reflexivity].
  destruct (truthy _); reflexivity.
Qed.

Lemma group_words_kept (ws : list entry) :
  forall grouped,
    fold_left group_step ws grouped
    = fold_left group_token (kept_tokens ws) grouped.
Proof.
  induction ws as [|w ws IH]; intros grouped; [reflexivity|].
  unfold kept_tokens. simpl. rewrite fold_left_app, <- group_step_kept.
  apply IH.
Qed.

Lemma seen_spec (k : string) (seen : list string) :
  existsb (String.eqb k) seen = true <-> In k seen.
Proof.
  rewrite existsb_exists. split.
  - intros [x [Hin E]]. apply String.eqb_eq in E. now subst.
  - intros Hin. exists k. split; [exact Hin|apply String.eqb_refl].
Qed.

Lemma first_seen_snoc (l : list string) (k : string) :
  first_seen (l ++ [k])
  = if existsb (String.eqb k) (first_seen l) then first_seen l
    else first_seen l ++ [k].
Proof. unfold first_seen. now rewrite fold_left_app. Qed.

Lemma first_seen_in (l : list string) (k : string) :
  In k (first_seen l) <-> In k l.
Proof.
  induction l as [|x l IH] using rev_ind; [reflexivity|].
  rewrite first_seen_snoc, in_app_iff.
  destruct (existsb (String.eqb x) (first_seen l)) eqn:E.
  - apply seen_spec in E. simpl. rewrite IH in *.
    intuition (subst; auto).
  - rewrite in_app_iff, IH. reflexivity.
Qed.

Lemma first_seen_nodup (l : list string) : NoDup (first_seen l).
Proof.
  induction l as [|x l IH] using rev_ind; [constructor|].
  rewrite first_seen_snoc.
  destruct (existsb (String.eqb x) (first_seen l)) eqn:E; [exact IH|].
  apply (Permutation_NoDup (Permutation_cons_append _ x)).
  constructor; [|exact IH].
  intros Hin. apply seen_spec in Hin. congruence.
Qed.

Lemma spoken_by_snoc (sp k : string) (t : token)
  (p : list (string * token)) :
  spoken_by sp (p ++ [(k, t)])
  = if String.eqb k sp then spoken_by sp p ++ [t] else spoken_by sp p.
Proof.
  unfold spoken_by. rewrite filter_app, map_app. simpl.
  destruct (String.eqb k sp); simpl; [reflexivity|apply app_nil_r].
Qed.

Lemma spoken_by_absent (sp : string) (p : list (string * token)) :
  ~ In sp (map fst p) -> spoken_by sp p = [].
Proof.
  unfold spoken_by. induction p as [|[k t] p IH]; intros Hn; simpl in *.
  - reflexivity.
  - destruct (String.eqb_spec k sp) as [->|_].
    + exfalso. apply Hn. now left.
    + apply IH. intros Hin. apply Hn. now right.
Qed.

Lemma spoken_by_present (sp : string) (p : list (string * token)) :
  In sp (map fst p) -> spoken_by sp p <> [].
Proof.
  unfold spoken_by. induction p as [|[k t] p IH]; intros Hin; simpl in *.
  - contradiction.
  - destruct (String.eqb_spec k sp) as [->|Hne]; [discriminate|].
    apply IH. destruct Hin as [E|Hin]; [contradiction|exact Hin].
Qed.

(** Appending a token to the dictionary, seen on the list of its keys. *)
Lemma append_to_groups (k : string) (t : token) (p : list (string * token))
  (ks : list string) :
  NoDup ks -> In k ks \/ spoken_by k p = [] ->
  append_to k t (map (fun sp => (sp, spoken_by sp p)) ks)
  = map (fun sp => (sp, spoken_by sp (p ++ [(k, t)])))
      (if existsb (String.eqb k) ks then ks else ks ++ [k]).
Proof.
  induction ks as [|h ks IH]; intros Hnd Hk.
  - destruct Hk as [[]|Hk]. simpl.
    now rewrite spoken_by_snoc, String.eqb_refl, Hk.
  - inversion Hnd as [|? ? Hh Hks]; subst. simpl.
    destruct (String.eqb_spec k h) as [->|Hne].
    + simpl. rewrite spoken_by_snoc, String.eqb_refl. f_equal.
      apply map_ext_in. intros sp Hsp.
      rewrite spoken_by_snoc.
      destruct (String.eqb_spec h sp) as [->|_]; [contradiction|reflexivity].
    + simpl. rewrite IH.
      * destruct (existsb (String.eqb k) ks); simpl;
          rewrite spoken_by_snoc;
          destruct (String.eqb_spec k h); try contradiction; reflexivity.
      * exact Hks.
      * destruct Hk as [[E|Hin]|Hk]; [congruence|now left|now right].
Qed.

(** The dictionary [grouped] after the grouping loop. *)
Lemma group_tokens_groups (toks : list (string * token)) :
  fold_left group_token toks [] = groups_of toks.
Proof.
  induction toks as [|[k t] p IH] using rev_ind; [reflexivity|].
  rewrite fold_left_app. simpl. rewrite IH. unfold group_token, groups_of.
  simpl. rewrite map_app. simpl. rewrite first_seen_snoc.
  apply append_to_groups; [apply first_seen_nodup|].
  destruct (in_dec string_dec k (map fst p)) as [Hin|Hn].
  - left. now apply first_seen_in.
  - right. now apply spoken_by_absent.
Qed.

Lemma last_cons {A : Type} (a d : A) (l : list A) :
  last (a :: l) d = last l a.
Proof.
  revert a d. induction l as [|x l IH]; intros a d; [reflexivity|].
  change (last (a :: x :: l) d) with (last (x :: l) d).
  now rewrite !IH.
Qed.

Lemma segment_of_group_turn (acc : list segment) (sp : string)
  (words : list token) :
  words <> [] -> segment_of_group acc (sp, words) = acc ++ [turn sp words].
Proof.
  destruct words as [|first others]; [congruence|]. intros _.
  unfold segment_of_group, turn, last_token. simpl hd.
  now rewrite last_cons.
Qed.

Lemma segments_of_groups (toks : list (string * token)) (ks : list string) :
  (forall sp, In sp ks -> spoken_by sp toks <> []) ->
  forall acc,
    fold_left segment_of_group (map (fun sp => (sp, spoken_by sp toks)) ks)
      acc
    = acc ++ map (fun sp => turn sp (spoken_by sp toks)) ks.
Proof.
  induction ks as [|k ks IH]; intros Hks acc; cbn [map fold_left].
  - now rewrite app_nil_r.
  - rewrite segment_of_group_turn by (apply Hks; now left).
    rewrite IH by (intros sp Hsp; apply Hks; now right).
    now rewrite <- app_assoc.
Qed.

(** C1 (counterexample): a speaker who talks, is interrupted and talks
    again gets one segment from the code, where the run-based reading asks
    for two. *)
Lemma build_segments_not_by_runs :
  ~ (forall ws : list entry, build_segments ws = segments_of_runs ws).
Proof.
  intros H. specialize (H Samples.interrupted).
  vm_compute in H. discriminate H.
Qed.

(** C1 (amended): the builder emits one segment per distinct speaker among
    the words with non-empty text, in order of first appearance of the
    speaker: start of the speaker's first word, end of the speaker's last
    word, all the speaker's words joined in order by single spaces. *)
Theorem build_segments_by_speaker (ws : list entry) :
  build_segments ws = segments_by_speaker (kept_tokens ws).
Proof.
  unfold build_segments, group_words, segments_by_speaker.
  rewrite group_words_kept, group_tokens_groups. unfold groups_of.
  rewrite segments_of_groups; [reflexivity|].
  intros sp Hsp. apply spoken_by_present. now apply first_seen_in.
Qed.

End BuildFacts.

(** ** The "Assign speakers" stage *)

Module StageFacts.

Import Transcribe Views.
Local Open Scope Q_scope.
Local Open Scope string_scope.

Lemma merge_close_segments_nil (g : Q) : merge_close_segments [] g = [].
Proof. reflexivity. Qed.

(** Whatever the scorer raises ends the run with status 1 and no file. *)
Lemma main_scorer_failure (ts : times) (assign : list entry -> list entry)
  (output_md : string) (aligned : list entry) (e : exn) :
  aligned <> [] ->
  calculate_speaker_confidence ts
    (merge_close_segments (build_segments (assign aligned)) default_max_gap)
  = Raise e ->
  main ts assign output_md aligned = mkRun 1 None (Some e).
Proof.
  intros Hne He. unfold main, assign_speakers.
  destruct aligned as [|w ws]; [congruence|].
  now rewrite He.
Qed.

(** On numpy scalars the scorer does not raise on a non-empty list; with
    a zero total no confidence is finite. *)
Lemma calculate_numpy (segs : list segment) :
  segs <> [] ->
  exists stats,
    calculate_speaker_confidence NumpyScalars segs = Ok stats
    /\ stats <> []
    /\ (talk_time segs == 0 ->
        Forall (fun kv => forall q, confidence (snd kv) <> Finite q) stats).
Proof.
  intros Hne. unfold calculate_speaker_confidence.
  destruct (ScoreFacts.score_numpy (total_duration (tally_segments segs))
              (length segs) (tally_segments segs)) as [r [Hr [Hl Hf]]].
  { destruct segs; simpl; congruence. }
  exists r. split; [exact Hr|]. split.
  - pose proof (ScoreFacts.tally_segments_nonempty segs Hne) as Ht.
    destruct r; [|discriminate].
    destruct (tally_segments segs); [congruence|discriminate].
  - intros Hz. apply Hf. apply Qeq_bool_iff.
    now rewrite ScoreFacts.tally_segments_total.
Qed.

(** On numpy scalars a stage with segments always reaches the Markdown
    step. *)
Lemma main_numpy_writes (assign : list entry -> list entry)
  (output_md : string) (aligned : list entry) :
  aligned <> [] ->
  merge_close_segments (build_segments (assign aligned)) default_max_gap
  <> [] ->
  main NumpyScalars assign output_md aligned
  = mkRun 0
      (Some (output_md,
             merge_close_segments (build_segments (assign aligned))
               default_max_gap))
      None.
Proof.
  intros Ha Hne. unfold main, assign_speakers.
  destruct aligned as [|w ws]; [congruence|].
  destruct (calculate_numpy _ Hne) as [stats [Hs _]]. rewrite Hs. simpl.
  destruct (merge_close_segments _ _); [congruence|reflexivity].
Qed.

(** C3 (amended): the scorer has no guard and no error type of its own.
    On the empty list it returns empty statistics and raises nothing.  On
    a non-empty list whose total duration is zero the outcome depends on
    the kind of the time stamps.  On Python [int] or [float] time stamps
    the first division raises [ZeroDivisionError], which the handler of
    [main] turns into exit status 1 with no Markdown file.  On
    [numpy.float64] time stamps nothing is raised: the confidences are
    [nan] or infinite, and [main] exits with status 0 and writes the
    Markdown file. *)
Theorem degenerate_input_unguarded :
  (forall ts : times, calculate_speaker_confidence ts [] = Ok [])
  /\ (forall segs : list segment,
        segs <> [] -> talk_time segs == 0 ->
        calculate_speaker_confidence PythonNumbers segs
        = Raise ZeroDivisionError)
  /\ (forall (assign : list entry -> list entry) (output_md : string)
             (aligned : list entry),
        aligned <> [] ->
        merge_close_segments (build_segments (assign aligned))
          default_max_gap <> [] ->
        talk_time (merge_close_segments (build_segments (assign aligned))
                     default_max_gap) == 0 ->
        main PythonNumbers assign output_md aligned
        = mkRun 1 None (Some ZeroDivisionError))
  /\ (forall segs : list segment,
        segs <> [] -> talk_time segs == 0 ->
        exists stats,
          calculate_speaker_confidence NumpyScalars segs = Ok stats
          /\ stats <> []
          /\ Forall (fun kv => forall q, confidence (snd kv) <> Finite q)
               stats)
  /\ (forall (assign : list entry -> list entry) (output_md : string)
             (aligned : list entry),
        aligned <> [] ->
        merge_close_segments (build_segments (assign aligned))
          default_max_gap <> [] ->
        talk_time (merge_close_segments (build_segments (assign aligned))
                     default_max_gap) == 0 ->
        main NumpyScalars assign output_md aligned
        = mkRun 0
            (Some (output_md,
                   merge_close_segments (build_segments (assign aligned))
                     default_max_gap))
            None).
Proof.
  split; [reflexivity|]. split; [|split; [|split]].
  - apply ScoreFacts.calculate_zero_total.
  - intros assign output_md aligned Ha Hne Hz.
    apply main_scorer_failure; [exact Ha|].
    now apply ScoreFacts.calculate_zero_total.
  - intros segs Hne Hz.
    destruct (calculate_numpy segs Hne) as [stats [Hs [Hn Hf]]].
    exists stats. split; [exact Hs|]. split; [exact Hn|now apply Hf].
  - intros assign output_md aligned Ha Hne _.
    now apply main_numpy_writes.
Qed.

Lemma degenerate_input_unguarded_witness :
  calculate_speaker_confidence NumpyScalars [] = Ok []
  /\ calculate_speaker_confidence PythonNumbers
       [Samples.still; Samples.pause]
     = Raise ZeroDivisionError
  /\ main PythonNumbers (fun ws => ws) "meeting.md" Samples.instant
     = mkRun 1 None (Some ZeroDivisionError)
  /\ (exists stats,
        calculate_speaker_confidence NumpyScalars
          [Samples.still; Samples.pause] = Ok stats
        /\ stats <> []
        /\ Forall (fun kv => forall q, confidence (snd kv) <> Finite q)
             stats)
  /\ main NumpyScalars (fun ws => ws) "meeting.md" Samples.instant
     = mkRun 0
         (Some ("meeting.md",
                merge_close_segments (build_segments Samples.instant)
                  default_max_gap))
         None.
Proof.
  destruct degenerate_input_unguarded as [H0 [H1 [H2 [H3 H4]]]].
  split; [apply H0|]. split; [|split; [|split]].
  - apply H1; [discriminate|reflexivity].
  - apply H2; [discriminate|vm_compute; discriminate|reflexivity].
  - apply H3; [discriminate|reflexivity].
  - apply (H4 (fun ws => ws) "meeting.md" Samples.instant);
      [discriminate|vm_compute; discriminate|reflexivity].
Defined.

(** C6: on the scenario of the specification (words already tagged, default
    gap 1.0) the stage yields the two segments A:[0.0-0.9] "Hi there" and
    B:[1.0-1.4] "Hello", with confidence 31/52 for A and 21/52 for B, that
    is 0.596 and 0.404 to three decimals, whatever the kind of the time
    stamps. *)
Theorem greeting_scenario (ts : times) :
  exists (a b : speaker_stat) (ca cb : Q),
    assign_speakers ts (fun ws => ws) Samples.greeting
    = Ok ([mkSegment "A" 0 (9 # 10) "Hi there";
           mkSegment "B" 1 (14 # 10) "Hello"],
          [("A", a); ("B", b)])
    /\ confidence a = Finite ca
    /\ confidence b = Finite cb
    /\ ca == 31 # 52
    /\ cb == 21 # 52
    /\ Qabs (ca - (596 # 1000)) < 1 # 2000
    /\ Qabs (cb - (404 # 1000)) < 1 # 2000.
Proof.
  destruct ts;
    (do 4 eexists; split; [vm_compute; reflexivity|];
     split; [reflexivity|]; split; [reflexivity|]; repeat split).
Qed.

(** C9: when no segment survives grouping, in particular when the word
    list is empty after speaker assignment, the stage raises (a
    [ValueError], the data error of the scripts), no Markdown file is
    written and the process exits with status 1.  This holds for
    [go_transcribe.py], whatever the kind of the time stamps, and for
    [go_record_and_transcribe.py]. *)
Theorem no_segments_no_markdown (ts : times)
  (assign : list entry -> list entry)
  (output_md : string) (aligned : list entry) :
  build_segments (assign aligned) = [] ->
  exists msg : string,
    main ts assign output_md aligned = mkRun 1 None (Some (ValueError msg))
    /\ main_rec assign output_md aligned
       = mkRun 1 None (Some (ValueError msg)).
Proof.
  intros Hb. unfold main, main_rec, assign_speakers, assign_speakers_rec.
  destruct aligned as [|w ws].
  - eexists. split; reflexivity.
  - rewrite Hb. simpl. eexists. split; reflexivity.
Qed.

Lemma no_segments_no_markdown_witness :
  exists msg : string,
    main NumpyScalars (fun _ => []) "meeting.md" Samples.greeting
    = mkRun 1 None (Some (ValueError msg))
    /\ main_rec (fun _ => []) "meeting.md" Samples.greeting
       = mkRun 1 None (Some (ValueError msg)).
Proof.
  apply (no_segments_no_markdown NumpyScalars (fun _ => []) "meeting.md"
           Samples.greeting).
  reflexivity.
Defined.

End StageFacts.

(** ** More on [merge_close_segments] *)

Module MergeMore.

Import Transcribe Views MoreViews SortFacts MergeFacts.
Local Open Scope Q_scope.

Lemma sorted_weaken {A : Type} (R R' : A -> A -> Prop) (l : list A) :
  (forall a b, R a b -> R' a b) -> Sorted R l -> Sorted R' l.
Proof.
  intros HR. induction 1 as [|a l Hl IH Hh]; constructor; [exact IH|].
  destruct Hh; constructor. now apply HR.
Qed.

Lemma apart_unmergeable (g : Q) (a b : segment) :
  apart g a b -> unmergeable g a b.
Proof.
  unfold apart, close, unmergeable. intros H.
  apply andb_false_iff in H as [H|H].
  - right. apply Qnot_le_lt. intros C. apply Qle_bool_iff in C. congruence.
  - left. now apply String.eqb_neq.
Qed.

(** X1: the output of [merge_close_segments] is in ascending order of
    start, whatever the order of the input. *)
Theorem merge_output_ascending (S : list segment) (g : Q) :
  StronglySorted le_start (merge_close_segments S g).
Proof. apply strongly_sorted_le, merge_close_segments_is_sorted. Qed.

(** X2: merging is exhaustive.  Any two adjacent segments of the output
    have different speakers or lie more than [max_gap] apart. *)
Theorem merge_output_exhaustive (S : list segment) (g : Q) :
  Sorted (unmergeable g) (merge_close_segments S g).
Proof.
  apply (sorted_weaken (apart g)); [apply apart_unmergeable|].
  rewrite merge_close_segments_sorted. apply merge_sorted_apart.
Qed.

Lemma merge_from_well_formed (g : Q) (rest : list segment) :
  forall cur,
    Sorted le_start (cur :: rest) -> Forall well_formed (cur :: rest) ->
    Forall well_formed (merge_from g cur rest).
Proof.
  induction rest as [|s rest IH]; intros cur Hs Hw; simpl; [exact Hw|].
  apply Sorted_inv in Hs as [Hrest Hcur]. apply HdRel_inv in Hcur.
  inversion Hw as [|? ? Hc Hw']; subst.
  inversion Hw' as [|? ? Hsw Hr]; subst.
  destruct (close g cur s).
  - apply IH.
    + apply Sorted_inv in Hrest as [Hr' Hsr]. constructor; [exact Hr'|].
      destruct rest as [|r rest']; constructor.
      apply HdRel_inv in Hsr. unfold le_start in *. simpl.
      now apply Qle_trans with (seg_start s).
    + constructor; [|exact Hr].
      unfold well_formed, le_start in *. simpl.
      now apply Qle_trans with (seg_start s).
  - constructor; [exact Hc|]. now apply IH.
Qed.

(** X3: merging keeps segments well formed.  If no input segment ends
    before it starts, no output segment does. *)
Theorem merge_keeps_well_formed (S : list segment) (g : Q) :
  Forall well_formed S -> Forall well_formed (merge_close_segments S g).
Proof.
  intros Hw. rewrite merge_close_segments_sorted.
  pose proof (sorted_by_start_sorted S) as Hs.
  assert (Forall well_formed (sorted_by_start S)) as Hw'
    by (eapply Permutation_Forall; [apply sorted_by_start_perm|exact Hw]).
  destruct (sorted_by_start S) as [|cur rest]; simpl; [constructor|].
  now apply merge_from_well_formed.
Qed.

Lemma merge_keeps_well_formed_witness :
  Forall well_formed (merge_close_segments [Samples.late; Samples.early] 1).
Proof.
  apply merge_keeps_well_formed.
  repeat constructor; unfold well_formed; vm_compute; discriminate.
Defined.

Lemma merge_from_length (g : Q) (rest : list segment) :
  forall cur,
    (1 <= length (merge_from g cur rest) <= S (length rest))%nat.
Proof.
  induction rest as [|s rest IH]; intros cur; simpl; [lia|].
  destruct (close g cur s); simpl.
  - specialize (IH (extend cur s)). lia.
  - specialize (IH s). lia.
Qed.

(** X4: merging never adds segments and never loses all of them: the
    output is no longer than the input, and it is empty exactly when the
    input is. *)
Theorem merge_length (S : list segment) (g : Q) :
  (length (merge_close_segments S g) <= length S)%nat
  /\ (merge_close_segments S g = [] <-> S = []).
Proof.
  rewrite merge_close_segments_sorted.
  pose proof (Permutation_length (sorted_by_start_perm S)) as Hlen.
  destruct (sorted_by_start S) as [|cur rest] eqn:E; simpl in *.
  - destruct S; [|discriminate]. split; [lia|tauto].
  - pose proof (merge_from_length g rest cur) as [H1 H2].
    split; [lia|]. split.
    + intros H0. rewrite H0 in H1. simpl in H1. lia.
    + intros ->. discriminate.
Qed.

Lemma merge_from_speakers (g : Q) (rest : list segment) :
  forall cur sp,
    In sp (map seg_speaker (merge_from g cur rest))
    <-> sp = seg_speaker cur \/ In sp (map seg_speaker rest).
Proof.
  induction rest as [|s rest IH]; intros cur sp; simpl.
  - intuition.
  - destruct (close g cur s) eqn:C.
    + rewrite IH. simpl.
      unfold close in C. apply andb_true_iff in C as [_ C].
      apply String.eqb_eq in C. rewrite C.
      intuition (subst; auto).
    + simpl. rewrite IH. intuition.
Qed.

(** X5: merging neither loses nor invents a speaker: the output has
    exactly the speaker labels of the input. *)
Theorem merge_keeps_speakers (S : list segment) (g : Q) (sp : string) :
  In sp (map seg_speaker (merge_close_segments S g))
  <-> In sp (map seg_speaker S).
Proof.
  rewrite merge_close_segments_sorted.
  pose proof (Permutation_map seg_speaker (sorted_by_start_perm S)) as HP.
  assert (In sp (map seg_speaker (sorted_by_start S))
          <-> In sp (map seg_speaker S)) as <-.
  { split; apply Permutation_in;
      [now apply Permutation_sym|exact HP]. }
  destruct (sorted_by_start S) as [|cur rest]; simpl; [tauto|].
  rewrite merge_from_speakers. intuition.
Qed.

Lemma joined_cons (a : segment) (l : list segment) :
  l <> [] ->
  joined_text (a :: l) = (seg_text a ++ " " ++ joined_text l)%string.
Proof. destruct l; [congruence|reflexivity]. Qed.

Lemma merge_from_text (g : Q) (rest : list segment) :
  forall cur,
    joined_text (merge_from g cur rest) = joined_text (cur :: rest).
Proof.
  induction rest as [|s rest IH]; intros cur; simpl merge_from.
  - reflexivity.
  - destruct (close g cur s).
    + rewrite IH. destruct rest as [|r rest'].
      * reflexivity.
      * rewrite !joined_cons by discriminate. simpl seg_text.
        now rewrite string_app_assoc.
    + destruct (merge_from_head g rest s) as [h [t [E _]]].
      rewrite joined_cons by (rewrite E; discriminate).
      rewrite IH. symmetry. apply joined_cons. discriminate.
Qed.

(** X6: merging neither loses nor reorders text: the texts of the output
    joined by spaces are the texts of the input, taken in order of start,
    joined by spaces. *)
Theorem merge_keeps_text (S : list segment) (g : Q) :
  joined_text (merge_close_segments S g) = joined_text (sorted_by_start S).
Proof.
  rewrite merge_close_segments_sorted.
  destruct (sorted_by_start S) as [|cur rest]; simpl merge_sorted;
    [reflexivity|apply merge_from_text].
Qed.

End MergeMore.

(** ** More on [calculate_speaker_confidence] *)

Module ScoreMore.

Import Transcribe Views MoreViews ScoreFacts.
Local Open Scope Q_scope.

(** A successful second loop has kept key, duration and count of every
    entry, whatever the divisions gave. *)
Lemma score_carries (ts : times) (total : Q) (n : nat)
  (stats : list (string * tally)) :
  forall r, score ts total n stats = Ok r -> Forall2 carries stats r.
Proof.
  induction stats as [|[k t] rest IH]; intros r H; simpl in H.
  - inversion H. constructor.
  - destruct (py_div ts (duration t) total) as [d|e]; simpl in H;
      [|discriminate].
    destruct (py_div PythonNumbers _ _) as [c|e]; simpl in H;
      [|discriminate].
    destruct (score ts total n rest) as [r'|e]; simpl in H; [|discriminate].
    inversion H; subst. constructor; [now repeat split|now apply IH].
Qed.

Lemma carries_keys (l : list (string * tally))
  (r : list (string * speaker_stat)) :
  Forall2 carries l r -> map fst r = map fst l.
Proof.
  induction 1 as [|kt kv l r [Hk _] _ IH]; simpl; [reflexivity|].
  now rewrite Hk, IH.
Qed.

Lemma carries_in (l : list (string * tally))
  (r : list (string * speaker_stat)) (kv : string * speaker_stat) :
  Forall2 carries l r -> In kv r -> exists kt, In kt l /\ carries kt kv.
Proof.
  induction 1 as [|kt kv' l r Hc _ IH]; intros Hin; [contradiction|].
  destruct Hin as [<-|Hin].
  - exists kt. split; [now left|exact Hc].
  - destruct (IH Hin) as [kt' [Hin' Hc']]. exists kt'. split; [now right|].
    exact Hc'.
Qed.

Lemma calculate_carries (ts : times) (segs : list segment)
  (stats : list (string * speaker_stat)) :
  calculate_speaker_confidence ts segs = Ok stats ->
  Forall2 carries (tally_segments segs) stats.
Proof. apply score_carries. Qed.


Lemma add_segment_keys (k : string) (d : Q) (stats : list (string * tally)) :
  map fst (add_segment k d stats) = see (map fst stats) k.
Proof.
  unfold see. induction stats as [|[k' t] rest IH]; simpl; [reflexivity|].
  destruct (String.eqb k k'); simpl; [reflexivity|].
  rewrite IH. now destruct (existsb (String.eqb k) (map fst rest)).
Qed.

Lemma tally_fold_keys (segs : list segment) :
  forall stats,
    map fst (fold_left tally_step segs stats)
    = fold_left see (map seg_speaker segs) (map fst stats).
Proof.
  induction segs as [|s segs IH]; intros stats; cbn [fold_left map];
    [reflexivity|].
  rewrite IH. unfold tally_step. now rewrite add_segment_keys.
Qed.

Lemma tally_segments_keys (segs : list segment) :
  map fst (tally_segments segs) = first_seen (map seg_speaker segs).
Proof.
  change (tally_segments segs) with (fold_left tally_step segs []).
  now rewrite tally_fold_keys.
Qed.

Lemma stats_keys (ts : times) (segs : list segment)
  (stats : list (string * speaker_stat)) :
  calculate_speaker_confidence ts segs = Ok stats ->
  map fst stats = first_seen (map seg_speaker segs).
Proof.
  intros H. apply calculate_carries in H.
  now rewrite (carries_keys _ _ H), tally_segments_keys.
Qed.

(** X8: the statistics have one entry per speaker, in order of the
    speaker's first segment, whatever the kind of the time stamps. *)
Theorem calculate_keys (ts : times) (segs : list segment)
  (stats : list (string * speaker_stat)) :
  calculate_speaker_confidence ts segs = Ok stats ->
  map fst stats = first_seen (map seg_speaker segs)
  /\ NoDup (map fst stats).
Proof.
  intros H. rewrite (stats_keys ts segs stats H).
  split; [reflexivity|apply BuildFacts.first_seen_nodup].
Qed.

Lemma calculate_keys_witness :
  exists stats,
    calculate_speaker_confidence NumpyScalars
      [Samples.early; Samples.pause; Samples.late]
    = Ok stats
    /\ map fst stats
       = first_seen
           (map seg_speaker [Samples.early; Samples.pause; Samples.late])
    /\ NoDup (map fst stats).
Proof.
  eexists. split.
  - vm_compute. reflexivity.
  - apply (calculate_keys NumpyScalars
             [Samples.early; Samples.pause; Samples.late]).
    vm_compute. reflexivity.
Defined.

Lemma add_segment_duration_of (sp k : string) (d : Q)
  (stats : list (string * tally)) :
  sumQ (map dur (tallies_of sp (add_segment k d stats)))
  == sumQ (map dur (tallies_of sp stats))
     + (if String.eqb k sp then d else 0).
Proof.
  unfold tallies_of.
  induction stats as [|[k' t] rest IH]; simpl.
  - destruct (String.eqb k sp); simpl; unfold dur; simpl; ring.
  - destruct (String.eqb_spec k k') as [->|Hne]; simpl.
    + destruct (String.eqb k' sp); simpl; unfold dur; simpl; ring.
    + destruct (String.eqb k' sp); simpl; rewrite IH; ring.
Qed.

Lemma add_segment_count_of (sp k : string) (d : Q)
  (stats : list (string * tally)) :
  tally_count (tallies_of sp (add_segment k d stats))
  = (tally_count (tallies_of sp stats)
     + (if String.eqb k sp then 1 else 0))%nat.
Proof.
  unfold tallies_of.
  induction stats as [|[k' t] rest IH]; simpl.
  - destruct (String.eqb k sp); reflexivity.
  - destruct (String.eqb_spec k k') as [->|Hne]; simpl.
    + destruct (String.eqb k' sp); simpl; lia.
    + destruct (String.eqb k' sp); simpl; rewrite IH; lia.
Qed.

Lemma tally_fold_duration_of (sp : string) (segs : list segment) :
  forall stats,
    sumQ (map dur (tallies_of sp (fold_left tally_step segs stats)))
    == sumQ (map dur (tallies_of sp stats))
       + talk_time (segments_of sp segs).
Proof.
  induction segs as [|s segs IH]; intros stats; cbn [fold_left].
  - unfold segments_of, talk_time. simpl. ring.
  - rewrite IH. unfold tally_step. rewrite add_segment_duration_of.
    unfold segments_of. simpl filter.
    destruct (String.eqb (seg_speaker s) sp).
    + change (talk_time (s :: filter
                (fun s0 => String.eqb (seg_speaker s0) sp) segs))
        with (span s + talk_time (filter
                (fun s0 => String.eqb (seg_speaker s0) sp) segs)).
      unfold span. ring.
    + ring.
Qed.

Lemma tally_fold_count_of (sp : string) (segs : list segment) :
  forall stats,
    tally_count (tallies_of sp (fold_left tally_step segs stats))
    = (tally_count (tallies_of sp stats)
       + length (segments_of sp segs))%nat.
Proof.
  induction segs as [|s segs IH]; intros stats; cbn [fold_left].
  - unfold segments_of. simpl. lia.
  - rewrite IH. unfold tally_step. rewrite add_segment_count_of.
    unfold segments_of. simpl filter.
    destruct (String.eqb (seg_speaker s) sp); simpl; lia.
Qed.

Lemma tallies_of_absent (k : string) (stats : list (string * tally)) :
  ~ In k (map fst stats) -> tallies_of k stats = [].
Proof.
  unfold tallies_of.
  induction stats as [|[k' t'] rest IH]; intros Hk; [reflexivity|].
  simpl in *. destruct (String.eqb_spec k' k) as [->|_].
  - exfalso. apply Hk. now left.
  - apply IH. intros C. apply Hk. now right.
Qed.

(** With distinct keys, the entries of a key are the one entry of it. *)
Lemma tallies_of_unique (stats : list (string * tally)) (kt : string * tally) :
  NoDup (map fst stats) -> In kt stats -> tallies_of (fst kt) stats = [kt].
Proof.
  induction stats as [|[k t] rest IH]; intros Hnd Hin; [contradiction|].
  inversion Hnd as [|? ? Hk Hrest]; subst.
  destruct Hin as [<-|Hin].
  - unfold tallies_of. simpl. rewrite String.eqb_refl. f_equal.
    now apply tallies_of_absent.
  - unfold tallies_of. simpl.
    destruct (String.eqb_spec k (fst kt)) as [->|_].
    + exfalso. apply Hk. now apply in_map.
    + now apply IH.
Qed.

Lemma stats_per_speaker (ts : times) (segs : list segment)
  (stats : list (string * speaker_stat)) :
  calculate_speaker_confidence ts segs = Ok stats ->
  Forall
    (fun kv =>
       stat_duration (snd kv) == talk_time (segments_of (fst kv) segs)
       /\ stat_segments (snd kv) = length (segments_of (fst kv) segs))
    stats.
Proof.
  intros H. apply calculate_carries in H.
  apply Forall_forall. intros kv Hin.
  destruct (carries_in _ _ kv H Hin) as [kt [Hin' [Hk [Hd' Hc']]]].
  clear Hin. rename Hin' into Hin. rewrite Hk, Hd', Hc'.
  assert (NoDup (map fst (tally_segments segs))) as Hnd
    by (rewrite tally_segments_keys; apply BuildFacts.first_seen_nodup).
  pose proof (tallies_of_unique _ kt Hnd Hin) as Hu.
  pose proof (tally_fold_duration_of (fst kt) segs []) as Hd.
  pose proof (tally_fold_count_of (fst kt) segs []) as Hc.
  change (fold_left tally_step segs []) with (tally_segments segs) in Hd, Hc.
  rewrite Hu in Hd, Hc.
  change (tallies_of (fst kt) []) with (@nil (string * tally)) in Hd, Hc.
  change (sumQ (map dur [kt])) with (dur kt + 0) in Hd.
  change (sumQ (map dur [])) with 0 in Hd.
  unfold dur in Hd. split; [lra|simpl in Hc; lia].
Qed.

(** X9: each entry of the statistics holds the talk time and the number
    of the segments of its speaker, whatever the kind of the time
    stamps. *)
Theorem calculate_per_speaker (ts : times) (segs : list segment)
  (stats : list (string * speaker_stat)) :
  calculate_speaker_confidence ts segs = Ok stats ->
  Forall
    (fun kv =>
       stat_duration (snd kv) == talk_time (segments_of (fst kv) segs)
       /\ stat_segments (snd kv) = length (segments_of (fst kv) segs))
    stats.
Proof. apply stats_per_speaker. Qed.

Lemma calculate_per_speaker_witness :
  exists stats,
    calculate_speaker_confidence NumpyScalars
      [Samples.early; Samples.pause; Samples.late]
    = Ok stats
    /\ Forall
         (fun kv =>
            stat_duration (snd kv)
            == talk_time
                 (segments_of (fst kv)
                    [Samples.early; Samples.pause; Samples.late])
            /\ stat_segments (snd kv)
               = length
                   (segments_of (fst kv)
                      [Samples.early; Samples.pause; Samples.late]))
         stats.
Proof.
  eexists. split.
  - vm_compute. reflexivity.
  - apply (calculate_per_speaker NumpyScalars
             [Samples.early; Samples.pause; Samples.late]).
    vm_compute. reflexivity.
Defined.

Lemma Q_of_nat_plus (a b : nat) :
  Q_of_nat (a + b) == Q_of_nat a + Q_of_nat b.
Proof. unfold Q_of_nat. now rewrite Nat2Z.inj_add, inject_Z_plus. Qed.

Lemma sum_average_share (total : Q) (n : nat) (l : list (string * tally)) :
  sumQ (map (average_share total n) l)
  == (sumQ (map dur l) / total + Q_of_nat (tally_count l) / Q_of_nat n) / 2.
Proof.
  induction l as [|kt l IH]; simpl.
  - unfold Q_of_nat, Qdiv. simpl. ring.
  - rewrite IH, Q_of_nat_plus. unfold average_share, dur, Qdiv. ring.
Qed.

(** X10: on a non-empty list whose total duration is not zero the scorer
    succeeds whatever the kind of the time stamps, every confidence is
    finite, and the confidences of all speakers sum to 1 (exactly, the
    times being exact rationals here). *)
Theorem confidences_sum_to_one (ts : times) (segs : list segment) :
  segs <> [] -> ~ talk_time segs == 0 ->
  exists (stats : list (string * speaker_stat)) (values : list Q),
    calculate_speaker_confidence ts segs = Ok stats
    /\ map (fun kv => confidence (snd kv)) stats = map Finite values
    /\ sumQ values == 1.
Proof.
  intros Hne Hnz.
  exists (map (scored (total_duration (tally_segments segs)) (length segs))
            (tally_segments segs)),
    (map (average_share (total_duration (tally_segments segs))
            (length segs))
       (tally_segments segs)).
  assert (length segs <> 0%nat) as Hlen
    by (destruct segs; simpl; congruence).
  split; [|split].
  - unfold calculate_speaker_confidence. apply score_ok; [|exact Hlen].
    destruct (Qeq_bool _ 0) eqn:E; [|reflexivity].
    apply Qeq_bool_iff in E. rewrite tally_segments_total in E.
    contradiction.
  - rewrite !map_map. reflexivity.
  - rewrite sum_average_share.
    rewrite <- total_duration_sum, tally_segments_count.
    rewrite tally_segments_total.
    assert (0 < Q_of_nat (length segs)) as Hn by now apply Q_of_nat_pos.
    field. split; [lra|exact Hnz].
Qed.

Lemma confidences_sum_to_one_witness :
  exists (stats : list (string * speaker_stat)) (values : list Q),
    calculate_speaker_confidence NumpyScalars
      [Samples.early; Samples.pause; Samples.late] = Ok stats
    /\ map (fun kv => confidence (snd kv)) stats = map Finite values
    /\ sumQ values == 1.
Proof.
  apply (confidences_sum_to_one NumpyScalars
           [Samples.early; Samples.pause; Samples.late]).
  - discriminate.
  - vm_compute. discriminate.
Defined.

(** C7: on a non-empty list of segments with start <= end and positive
    total duration the scorer succeeds, whatever the kind of the time
    stamps.  The statistics have one entry per speaker of the list, each
    holding the talk time and the number of segments of its own speaker;
    the duration shares of the speakers sum to 1; every confidence is the
    average of the speaker's duration share and segment-count share; both
    shares and the confidence lie in [0,1]. *)
Theorem confidence_shares (ts : times) (segs : list segment) :
  segs <> [] ->
  Forall (fun s => seg_start s <= seg_end s) segs ->
  0 < talk_time segs ->
  exists stats : list (string * speaker_stat),
    calculate_speaker_confidence ts segs = Ok stats
    /\ map fst stats = first_seen (map seg_speaker segs)
    /\ sumQ (map (fun kv => duration_share (talk_time segs) (snd kv)) stats)
       == 1
    /\ Forall
         (fun kv =>
            stat_duration (snd kv)
            == talk_time (segments_of (fst kv) segs)
            /\ stat_segments (snd kv) = length (segments_of (fst kv) segs)
            /\ exists q,
                 confidence (snd kv) = Finite q
                 /\ q == (duration_share (talk_time segs) (snd kv)
                          + count_share (length segs) (snd kv)) / 2
                 /\ in_unit (duration_share (talk_time segs) (snd kv))
                 /\ in_unit (count_share (length segs) (snd kv))
                 /\ in_unit q)
         stats.
Proof.
  intros Hne Hord Hpos.
  destruct (scored_shares ts segs Hne Hord Hpos) as [stats [Hc [Hs Hall]]].
  exists stats. split; [exact Hc|].
  split; [now apply (stats_keys ts)|]. split; [exact Hs|].
  pose proof (stats_per_speaker ts segs stats Hc) as Hp.
  rewrite Forall_forall in *. intros kv Hin.
  destruct (Hp kv Hin) as [Hd Hn]. now repeat split; [| |apply Hall].
Qed.

Lemma confidence_shares_witness :
  exists stats : list (string * speaker_stat),
    calculate_speaker_confidence NumpyScalars
      [Samples.early; Samples.pause; Samples.late] = Ok stats
    /\ map fst stats
       = first_seen
           (map seg_speaker [Samples.early; Samples.pause; Samples.late])
    /\ sumQ (map (fun kv =>
                    duration_share
                      (talk_time
                         [Samples.early; Samples.pause; Samples.late])
                      (snd kv))
              stats) == 1
    /\ Forall
         (fun kv =>
            stat_duration (snd kv)
            == talk_time
                 (segments_of (fst kv)
                    [Samples.early; Samples.pause; Samples.late])
            /\ stat_segments (snd kv)
               = length
                   (segments_of (fst kv)
                      [Samples.early; Samples.pause; Samples.late])
            /\ exists q,
                 confidence (snd kv) = Finite q
                 /\ q == (duration_share
                            (talk_time
                               [Samples.early; Samples.pause; Samples.late])
                            (snd kv)
                          + count_share 3 (snd kv)) / 2
                 /\ in_unit
                      (duration_share
                         (talk_time
                            [Samples.early; Samples.pause; Samples.late])
                         (snd kv))
                 /\ in_unit (count_share 3 (snd kv))
                 /\ in_unit q)
         stats.
Proof.
  apply (confidence_shares NumpyScalars
           [Samples.early; Samples.pause; Samples.late]).
  - discriminate.
  - repeat constructor; vm_compute; discriminate.
  - reflexivity.
Defined.

End ScoreMore.

(** ** More on the segment builder and the stage *)

Module BuildMore.

Import Transcribe Views MoreViews SortFacts MergeFacts BuildFacts.
Local Open Scope Q_scope.

(** The builder seen on the kept tokens. *)
Lemma build_segments_view (ws : list entry) :
  build_segments ws = segments_by_speaker (kept_tokens ws).
Proof.
  unfold build_segments, group_words, segments_by_speaker.
  rewrite group_words_kept, group_tokens_groups. unfold groups_of.
  rewrite segments_of_groups; [reflexivity|].
  intros sp Hsp. apply spoken_by_present. now apply first_seen_in.
Qed.

Lemma build_segments_speakers (ws : list entry) :
  map seg_speaker (build_segments ws)
  = first_seen (map fst (kept_tokens ws)).
Proof.
  rewrite build_segments_view. unfold segments_by_speaker.
  rewrite map_map. simpl. apply map_id.
Qed.

Lemma build_segments_nodup (ws : list entry) :
  NoDup (map seg_speaker (build_segments ws)).
Proof. rewrite build_segments_speakers. apply first_seen_nodup. Qed.

(** X11: the builder never emits two segments of one speaker; a speaker
    has a segment exactly when one of the speaker's words has text. *)
Theorem build_segments_distinct (ws : list entry) :
  NoDup (map seg_speaker (build_segments ws))
  /\ forall sp, In sp (map seg_speaker (build_segments ws))
                <-> In sp (map fst (kept_tokens ws)).
Proof.
  split; [apply build_segments_nodup|].
  intros sp. rewrite build_segments_speakers. apply first_seen_in.
Qed.

Lemma dropped_kept (w : entry) : dropped w -> kept w = [].
Proof.
  destruct w as [d|]; simpl; [|reflexivity]. intros ->. reflexivity.
Qed.

(** X12: entries that are not dictionaries and words without text under
    both keys change nothing: the builder gives the same segments with and
    without them. *)
Theorem build_segments_skips_dropped (ws1 ws2 : list entry) (w : entry) :
  dropped w ->
  build_segments (ws1 ++ w :: ws2) = build_segments (ws1 ++ ws2).
Proof.
  intros Hd. rewrite !build_segments_view. f_equal.
  unfold kept_tokens. rewrite !flat_map_app. simpl.
  now rewrite (dropped_kept w Hd).
Qed.

Lemma build_segments_skips_dropped_witness :
  build_segments (Samples.greeting ++ NotDict :: Samples.interrupted)
  = build_segments (Samples.greeting ++ Samples.interrupted).
Proof. apply build_segments_skips_dropped. exact I. Defined.

(** Segments of pairwise different speakers are never merged. *)
Lemma distinct_speakers_apart (g : Q) (l : list segment) :
  NoDup (map seg_speaker l) -> Sorted (apart g) l.
Proof.
  induction l as [|a l IH]; intros Hnd; [constructor|].
  inversion Hnd as [|? ? Ha Hl]; subst. constructor; [now apply IH|].
  destruct l as [|b l']; constructor.
  unfold apart, close. apply andb_false_iff. right.
  apply String.eqb_neq. intros E. apply Ha. left. now symmetry.
Qed.

Lemma merge_distinct_speakers (S : list segment) (g : Q) :
  NoDup (map seg_speaker S) ->
  merge_close_segments S g = sorted_by_start S.
Proof.
  intros Hnd. rewrite merge_close_segments_sorted.
  apply merge_sorted_fix, distinct_speakers_apart.
  eapply Permutation_NoDup; [|exact Hnd].
  apply Permutation_map, sorted_by_start_perm.
Qed.

(** X13: after the builder the merger has nothing to merge.  Whatever the
    gap, [merge_close_segments] only sorts the builder's segments by
    start. *)
Theorem merge_after_build_only_sorts (ws : list entry) (g : Q) :
  merge_close_segments (build_segments ws) g
  = sorted_by_start (build_segments ws).
Proof. apply merge_distinct_speakers, build_segments_nodup. Qed.

Lemma first_seen_constant (k : string) (l : list string) :
  Forall (eq k) l -> l <> [] -> first_seen l = [k].
Proof.
  intros Hall Hne. destruct l as [|x l]; [congruence|].
  apply Forall_cons_iff in Hall as [<- Hl]. unfold first_seen. simpl.
  clear Hne. induction l as [|y l IH]; [reflexivity|].
  apply Forall_cons_iff in Hl as [<- Hl]. simpl.
  rewrite String.eqb_refl. simpl. now apply IH.
Qed.

Lemma spoken_by_all (k : string) (toks : list (string * token)) :
  Forall (fun st => k = fst st) toks -> spoken_by k toks = map snd toks.
Proof.
  unfold spoken_by. induction 1 as [|[k' t] toks Hk _ IH]; [reflexivity|].
  simpl in *. subst k'. rewrite String.eqb_refl. simpl. now rewrite IH.
Qed.

Lemma kept_unlabelled (ws : list entry) :
  (forall d, In (Dict d) ws -> w_speaker d = None) ->
  Forall (fun st => "SPEAKER_UNKNOWN"%string = fst st) (kept_tokens ws).
Proof.
  intros H. unfold kept_tokens. apply Forall_flat_map, Forall_forall.
  intros w Hw. destruct w as [d|]; simpl; [|constructor].
  destruct (truthy _); [|constructor].
  constructor; [|constructor]. simpl. now rewrite (H d Hw).
Qed.

(** X14: when no word carries a speaker, all words with text end up in one
    segment of the speaker "SPEAKER_UNKNOWN", in their order. *)
Theorem build_segments_unlabelled (ws : list entry) :
  (forall d, In (Dict d) ws -> w_speaker d = None) ->
  kept_tokens ws <> [] ->
  build_segments ws
  = [turn "SPEAKER_UNKNOWN" (map snd (kept_tokens ws))].
Proof.
  intros Hnone Hne. rewrite build_segments_view.
  pose proof (kept_unlabelled ws Hnone) as Hall.
  unfold segments_by_speaker.
  rewrite (first_seen_constant "SPEAKER_UNKNOWN").
  - simpl. now rewrite spoken_by_all.
  - apply Forall_map. exact Hall.
  - destruct (kept_tokens ws); [congruence|discriminate].
Qed.

Lemma build_segments_unlabelled_witness :
  build_segments
    [Dict (mkWord None (Some "Hi"%string) None (Some 0) (Some 1));
     Dict (mkWord None None (Some "all"%string) (Some 1) (Some 2))]
  = [turn "SPEAKER_UNKNOWN"
       (map snd
          (kept_tokens
             [Dict (mkWord None (Some "Hi"%string) None (Some 0) (Some 1));
              Dict (mkWord None None (Some "all"%string)
                      (Some 1) (Some 2))]))].
Proof.
  apply build_segments_unlabelled.
  - intros d [E|[E|[]]]; inversion E; reflexivity.
  - discriminate.
Defined.

End BuildMore.

Module StageMore.

Import Transcribe Views MoreViews SortFacts MergeFacts BuildFacts.
Import ScoreFacts ScoreMore BuildMore Report.
Local Open Scope Q_scope.

Lemma last_in {A : Type} (l : list A) :
  forall a d, In (last (a :: l) d) (a :: l).
Proof.
  induction l as [|x l IH]; intros a d; [now left|].
  right. change (last (a :: x :: l) d) with (last (x :: l) d). apply IH.
Qed.

Lemma last_of_map {A B : Type} (f : A -> B) (l : list A) (d : A) :
  last (map f l) (f d) = f (last l d).
Proof.
  induction l as [|x l IH]; [reflexivity|].
  destruct l as [|y l]; [reflexivity|]. exact IH.
Qed.

Lemma strongly_sorted_filter {A : Type} (R : A -> A -> Prop)
  (f : A -> bool) (l : list A) :
  StronglySorted R l -> StronglySorted R (filter f l).
Proof.
  induction 1 as [|a l Hl IH Ha]; simpl; [constructor|].
  destruct (f a); [|exact IH]. constructor; [exact IH|].
  rewrite Forall_forall in *. intros x Hx.
  apply filter_In in Hx as [Hx _]. now apply Ha.
Qed.

(** In a time-ordered non-empty list the first token starts no later than
    the last one ends. *)
Lemma ordered_span (toks : list (string * token)) :
  time_ordered toks -> toks <> [] ->
  tok_start (hd no_token (map snd toks))
  <= tok_end (last (map snd toks) no_token).
Proof.
  intros [Hs Hw] Hne. destruct toks as [|a l]; [congruence|].
  change (hd no_token (map snd (a :: l))) with (snd a).
  change no_token with (snd (fst a, no_token)).
  rewrite last_of_map.
  pose proof (last_in l a (fst a, no_token)) as Hin.
  set (z := last (a :: l) (fst a, no_token)) in *.
  rewrite Forall_forall in Hw.
  apply Qle_trans with (tok_start (snd z)); [|now apply Hw].
  destruct Hin as [<-|Hin]; [apply Qle_refl|].
  apply StronglySorted_inv in Hs as [_ Ha].
  rewrite Forall_forall in Ha. now apply Ha.
Qed.

Lemma time_ordered_filter (f : string * token -> bool)
  (toks : list (string * token)) :
  time_ordered toks -> time_ordered (filter f toks).
Proof.
  intros [Hs Hw]. split; [now apply strongly_sorted_filter|].
  rewrite Forall_forall in *. intros x Hx.
  apply filter_In in Hx as [Hx _]. now apply Hw.
Qed.

(** X15: on words in time order, none ending before it starts, every
    segment of the builder is well formed. *)
Theorem build_segments_well_formed (ws : list entry) :
  time_ordered (kept_tokens ws) ->
  Forall well_formed (build_segments ws).
Proof.
  intros Hto. rewrite build_segments_view. unfold segments_by_speaker.
  apply Forall_map, Forall_forall. intros sp Hsp.
  unfold well_formed, turn, spoken_by. simpl.
  apply ordered_span; [now apply time_ordered_filter|].
  apply first_seen_in, spoken_by_present in Hsp.
  unfold spoken_by in Hsp. intros E. apply Hsp. now rewrite E.
Qed.

Lemma build_segments_well_formed_witness :
  Forall well_formed (build_segments Samples.interrupted).
Proof.
  apply build_segments_well_formed. split.
  - repeat constructor; unfold tok_le; vm_compute; discriminate.
  - repeat constructor; vm_compute; discriminate.
Defined.

Lemma first_seen_nodup_id (l : list string) : NoDup l -> first_seen l = l.
Proof.
  induction l as [|x l IH] using rev_ind; intros Hnd; [reflexivity|].
  rewrite first_seen_snoc.
  apply NoDup_remove in Hnd as [Hl Hx]. rewrite app_nil_r in *.
  rewrite (IH Hl).
  destruct (existsb (String.eqb x) l) eqn:E; [|reflexivity].
  apply seen_spec in E. contradiction.
Qed.

Lemma segments_of_single (segs : list segment) (sp : string) :
  NoDup (map seg_speaker segs) -> In sp (map seg_speaker segs) ->
  length (segments_of sp segs) = 1%nat.
Proof.
  unfold segments_of.
  induction segs as [|s segs IH]; intros Hnd Hin; [contradiction|].
  inversion Hnd as [|? ? Hs Hrest]; subst. simpl in *.
  destruct (String.eqb_spec (seg_speaker s) sp) as [E|Hne].
  - simpl. f_equal. subst sp. clear IH Hin Hnd Hrest.
    induction segs as [|t segs IH]; [reflexivity|]. simpl in *.
    destruct (String.eqb_spec (seg_speaker t) (seg_speaker s)) as [E|_].
    + exfalso. apply Hs. now left.
    + apply IH. intros C. apply Hs. now right.
  - apply IH; [exact Hrest|]. destruct Hin as [E|Hin]; [contradiction|].
    exact Hin.
Qed.

(** What a successful stage returns. *)
Lemma assign_speakers_ok (ts : times) (assign : list entry -> list entry)
  (aligned : list entry) (segs : list segment)
  (stats : list (string * speaker_stat)) :
  assign_speakers ts assign aligned = Ok (segs, stats) ->
  segs = sorted_by_start (build_segments (assign aligned))
  /\ segs <> []
  /\ calculate_speaker_confidence ts segs = Ok stats.
Proof.
  unfold assign_speakers. destruct aligned as [|w ws]; [discriminate|].
  rewrite (merge_distinct_speakers _ _ (build_segments_nodup _)).
  destruct (calculate_speaker_confidence ts _) as [st|e] eqn:E; simpl;
    [|discriminate].
  destruct (sorted_by_start _) as [|s l] eqn:Es; [discriminate|].
  intros H. inversion H; subst. now repeat split.
Qed.

(** X16: in [main] every speaker has exactly one segment.  The statistics
    of a successful stage run parallel to its segments, and every entry
    counts one segment, whatever the kind of the time stamps. *)
Theorem stage_one_segment_per_speaker (ts : times)
  (assign : list entry -> list entry)
  (aligned : list entry) (segs : list segment)
  (stats : list (string * speaker_stat)) :
  assign_speakers ts assign aligned = Ok (segs, stats) ->
  map fst stats = map seg_speaker segs
  /\ Forall (fun kv => stat_segments (snd kv) = 1%nat) stats.
Proof.
  intros H. apply assign_speakers_ok in H as [Hs [_ Hc]].
  assert (NoDup (map seg_speaker segs)) as Hnd.
  { subst segs. eapply Permutation_NoDup; [|apply build_segments_nodup].
    apply Permutation_map, sorted_by_start_perm. }
  pose proof (stats_keys ts segs stats Hc) as Hk.
  rewrite (first_seen_nodup_id _ Hnd) in Hk. split; [exact Hk|].
  pose proof (stats_per_speaker ts segs stats Hc) as Hp.
  rewrite Forall_forall in *. intros kv Hin.
  destruct (Hp kv Hin) as [_ ->].
  apply segments_of_single; [exact Hnd|].
  rewrite <- Hk. now apply in_map.
Qed.

Lemma stage_one_segment_per_speaker_witness :
  exists segs stats,
    assign_speakers NumpyScalars (fun ws => ws) Samples.interrupted
    = Ok (segs, stats)
    /\ map fst stats = map seg_speaker segs
    /\ Forall (fun kv => stat_segments (snd kv) = 1%nat) stats.
Proof.
  eexists. eexists. split.
  - vm_compute. reflexivity.
  - apply (stage_one_segment_per_speaker NumpyScalars (fun ws => ws)
             Samples.interrupted).
    vm_compute. reflexivity.
Defined.

(** X17: [main] of [go_transcribe.py] exits with status 0 exactly when it
    writes the transcript, and a transcript it writes is never empty: it
    holds the builder's segments in ascending order of start.  In every
    other case the status is 1 and an exception was caught.  This holds
    whatever the kind of the time stamps. *)
Theorem main_outcome (ts : times) (assign : list entry -> list entry)
  (output_md : string) (aligned : list entry) :
  match markdown (main ts assign output_md aligned) with
  | Some (path, segs) =>
      exit_status (main ts assign output_md aligned) = 0%Z
      /\ caught (main ts assign output_md aligned) = None
      /\ path = output_md
      /\ segs = sorted_by_start (build_segments (assign aligned))
      /\ segs <> []
  | None =>
      exit_status (main ts assign output_md aligned) = 1%Z
      /\ caught (main ts assign output_md aligned) <> None
  end.
Proof.
  unfold main.
  destruct (assign_speakers ts assign aligned) as [[segs stats]|e] eqn:E;
    simpl.
  - apply assign_speakers_ok in E as [Hs [Hne _]]. now repeat split.
  - split; [reflexivity|discriminate].
Qed.

(** X18: [main] of [go_record_and_transcribe.py] writes the builder's
    segments as they are, in order of first appearance of the speakers and
    not sorted by start; it exits with status 0 exactly when it writes. *)
Theorem main_rec_outcome (assign : list entry -> list entry)
  (output_md : string) (aligned : list entry) :
  match markdown (main_rec assign output_md aligned) with
  | Some (path, segs) =>
      exit_status (main_rec assign output_md aligned) = 0%Z
      /\ path = output_md
      /\ segs = build_segments (assign aligned)
      /\ map seg_speaker segs
         = first_seen (map fst (kept_tokens (assign aligned)))
  | None =>
      exit_status (main_rec assign output_md aligned) = 1%Z
      /\ caught (main_rec assign output_md aligned) <> None
  end.
Proof.
  unfold main_rec, assign_speakers_rec.
  destruct aligned as [|w ws]; simpl; [split; [reflexivity|discriminate]|].
  destruct (build_segments (assign (w :: ws))) as [|s l] eqn:E; simpl.
  - split; [reflexivity|discriminate].
  - repeat split.
    change (map seg_speaker (s :: l)
            = first_seen (map fst (kept_tokens (assign (w :: ws))))).
    rewrite <- E. apply build_segments_speakers.
Qed.

Lemma lookup_present (sp : string) (stats : list (string * speaker_stat)) :
  In sp (map fst stats) -> exists st, lookup sp stats = Some st.
Proof.
  induction stats as [|[k st] rest IH]; intros Hin; [contradiction|].
  simpl. destruct (String.eqb_spec sp k) as [_|Hne]; [now exists st|].
  apply IH. destruct Hin as [E|Hin]; [simpl in E; congruence|exact Hin].
Qed.

Lemma transcript_known (strip : string -> string)
  (stats : list (string * speaker_stat)) (segs : list segment) :
  Forall (fun s => In (seg_speaker s) (map fst stats)) segs ->
  snd (transcript strip segs stats) = None
  /\ map h_speaker (fst (transcript strip segs stats))
     = map seg_speaker segs.
Proof.
  induction 1 as [|s segs Hs _ IH]; simpl; [now split|].
  destruct (lookup_present _ _ Hs) as [st ->].
  destruct (transcript strip segs stats) as [written err].
  simpl in *. destruct IH as [-> ->]. now split.
Qed.

(** X19: the Markdown loop never misses a speaker.  With the statistics
    the scorer returned for the same segments, every lookup succeeds and
    one heading is written per segment, in order, whatever the kind of the
    time stamps. *)
Theorem transcript_complete (ts : times) (strip : string -> string)
  (segs : list segment) (stats : list (string * speaker_stat)) :
  calculate_speaker_confidence ts segs = Ok stats ->
  snd (transcript strip segs stats) = None
  /\ map h_speaker (fst (transcript strip segs stats))
     = map seg_speaker segs.
Proof.
  intros H. apply transcript_known.
  rewrite (stats_keys ts segs stats H). apply Forall_forall.
  intros s Hs. apply first_seen_in. now apply in_map.
Qed.

Lemma transcript_complete_witness :
  exists stats,
    calculate_speaker_confidence NumpyScalars [Samples.early; Samples.pause]
    = Ok stats
    /\ snd (transcript (fun t => t) [Samples.early; Samples.pause] stats)
       = None
    /\ map h_speaker
         (fst (transcript (fun t => t) [Samples.early; Samples.pause] stats))
       = map seg_speaker [Samples.early; Samples.pause].
Proof.
  eexists. split.
  - vm_compute. reflexivity.
  - apply (transcript_complete NumpyScalars (fun t => t)
             [Samples.early; Samples.pause]).
    vm_compute. reflexivity.
Defined.

End StageMore.

(** ** More on the mixer *)

Module MixerMore.

Import Mixer MixerViews MixerFacts.
Local Open Scope Z_scope.

Lemma wrap16_above (z : Z) :
  32767 < z <= 98303 -> wrap16 z = z - 65536.
Proof.
  intros H. unfold wrap16.
  replace (z + 32768) with ((z - 32768) + 1 * 65536) by lia.
  rewrite Z_mod_plus_full, Z.mod_small by lia. lia.
Qed.

Lemma wrap16_below (z : Z) :
  -98304 <= z < -32768 -> wrap16 z = z + 65536.
Proof.
  intros H. unfold wrap16.
  replace (z + 32768) with ((z + 98304) + (-1) * 65536) by lia.
  rewrite Z_mod_plus_full, Z.mod_small by lia. lia.
Qed.

(** X20: what the mixer does to two [int16] samples.  A sum that fits is
    kept exactly; a sum above 32767 comes out 65536 lower, a sum below
    -32768 comes out 65536 higher: overflow flips the sign instead of
    saturating. *)
Theorem mix_sample_cases (mic sys : Z) :
  is_int16 mic -> is_int16 sys ->
  (is_int16 (mic + sys) -> mix_sample mic sys = mic + sys)
  /\ (32767 < mic + sys -> mix_sample mic sys = mic + sys - 65536)
  /\ (mic + sys < -32768 -> mix_sample mic sys = mic + sys + 65536).
Proof.
  unfold is_int16. intros Hm Hs. rewrite mix_sample_wrapped_sum.
  repeat split; intros H.
  - apply wrap16_id. exact H.
  - apply wrap16_above. lia.
  - apply wrap16_below. lia.
Qed.

Lemma mix_sample_cases_witness :
  mix_sample 20000 20000 = 20000 + 20000 - 65536
  /\ mix_sample 100 (-300) = 100 + -300.
Proof.
  destruct (mix_sample_cases 20000 20000) as [_ [H _]];
    [unfold is_int16; lia|unfold is_int16; lia|].
  destruct (mix_sample_cases 100 (-300)) as [H' _];
    [unfold is_int16; lia|unfold is_int16; lia|].
  split; [apply H; lia|apply H'; unfold is_int16; lia].
Defined.

(** X21: mixing is commutative, and a mixed sample is always a valid
    [int16] value. *)
Theorem mix_sample_commutes (mic sys : Z) :
  mix_sample mic sys = mix_sample sys mic /\ is_int16 (mix_sample mic sys).
Proof.
  split; [apply mix_sample_comm|].
  rewrite mix_sample_wrapped_sum. apply wrap16_range.
Qed.

Lemma mix_chunk_equal (mic_data : list Z) (sys_data : list (list Z)) :
  length mic_data = length (flatten sys_data) ->
  exists mixed, mix_chunk mic_data sys_data = Ok mixed
                /\ length mixed = length mic_data.
Proof.
  intros H. unfold mix_chunk. rewrite broadcast_equal by exact H. simpl.
  eexists. split; [reflexivity|].
  rewrite length_map. now apply zip_with_length.
Qed.

Lemma capture_loop_ok (cycles : list (list (list Z) * list Z)) :
  Forall equal_lengths cycles ->
  forall acc, exists chunks,
    capture_loop cycles acc = Ok (acc ++ chunks)
    /\ map (@length Z) chunks = map (fun c => length (snd c)) cycles.
Proof.
  induction 1 as [|[sys_data mic_data] cycles Hc _ IH]; intros acc.
  - exists []. simpl. now rewrite app_nil_r.
  - destruct (mix_chunk_equal mic_data sys_data Hc) as [mixed [Hm Hl]].
    destruct (IH (acc ++ [mixed])) as [chunks [Hloop Hlen]].
    exists (mixed :: chunks). simpl. rewrite Hm. simpl.
    rewrite Hloop, <- app_assoc. simpl. split; [reflexivity|].
    now rewrite Hl, Hlen.
Qed.

(** X22: when the two chunks of every cycle have the same length, the
    capture saves one waveform whose length is the sum of the chunk
    lengths, and nothing fails; without any cycle nothing is saved. *)
Theorem capture_saves_all (cycles : list (list (list Z) * list Z)) :
  Forall equal_lengths cycles ->
  match cycles with
  | [] => record_combined_audio cycles = mkCapture None None
  | _ =>
      exists audio,
        record_combined_audio cycles = mkCapture (Some audio) None
        /\ length audio = list_sum (map (fun c => length (snd c)) cycles)
  end.
Proof.
  intros H. destruct cycles as [|c cycles]; [reflexivity|].
  destruct (capture_loop_ok (c :: cycles) H []) as [chunks [Hloop Hlen]].
  unfold record_combined_audio. rewrite Hloop. simpl app.
  destruct chunks as [|ch chunks]; [discriminate|].
  eexists. split; [reflexivity|].
  now rewrite length_concat, Hlen.
Qed.

Lemma capture_saves_all_witness :
  exists audio,
    record_combined_audio [([[1]; [2]], [3; 4]); ([[5]], [6])]
    = mkCapture (Some audio) None
    /\ length audio = 3%nat.
Proof.
  apply (capture_saves_all [([[1]; [2]], [3; 4]); ([[5]], [6])]).
  repeat constructor.
Defined.

Lemma capture_loop_fails (cycles : list (list (list Z) * list Z)) :
  Exists fails cycles ->
  forall acc, exists e, capture_loop cycles acc = Raise e.
Proof.
  induction cycles as [|[sys_data mic_data] cycles IH]; intros Hex acc.
  - inversion Hex.
  - simpl. destruct (mix_chunk mic_data sys_data) as [mixed|e] eqn:E; simpl.
    + apply IH. inversion Hex as [? ? [e He]|]; subst; [|assumption].
      simpl in He. congruence.
    + now exists e.
Qed.

(** X23: one failing cycle loses the whole recording.  If the mix of any
    cycle raises, nothing is saved, not even the chunks mixed before. *)
Theorem capture_failure_saves_nothing
  (cycles : list (list (list Z) * list Z)) :
  Exists fails cycles ->
  saved (record_combined_audio cycles) = None
  /\ failure (record_combined_audio cycles) <> None.
Proof.
  intros H. destruct (capture_loop_fails cycles H []) as [e He].
  unfold record_combined_audio. rewrite He. simpl.
  split; [reflexivity|discriminate].
Qed.

Lemma capture_failure_saves_nothing_witness :
  saved (record_combined_audio [([[1]; [2]], [3; 4]); ([[5]; [9]], [6; 7; 8])])
  = None
  /\ failure
       (record_combined_audio [([[1]; [2]], [3; 4]); ([[5]; [9]], [6; 7; 8])])
     <> None.
Proof.
  apply capture_failure_saves_nothing.
  apply Exists_cons_tl. apply Exists_cons_hd.
  exists (ShapeError 3 2). reflexivity.
Defined.

(** X24: a microphone chunk of one sample is not an error: it is
    stretched over the system chunk, every system sample being mixed with
    that one sample, so the mixed chunk has the length of the system
    chunk. *)
Theorem mix_chunk_stretches (mic : Z) (sys_data : list (list Z)) :
  mix_chunk [mic] sys_data = Ok (map (mix_sample mic) (flatten sys_data)).
Proof.
  unfold mix_chunk, broadcast. simpl length at 1.
  destruct (Nat.eqb_spec 1 (length (flatten sys_data))) as [E|_].
  - destruct (flatten sys_data) as [|y [|y' ys]]; try discriminate.
    reflexivity.
  - simpl. now rewrite map_map.
Qed.

End MixerMore.

(** ** The recorder and the file names *)

Module RecorderFacts.

Import Recorder.

Lemma stop_recording_stops (r : recorder) :
  recording (stop_recording r) = false.
Proof. unfold stop_recording. now destruct (recording r) eqn:E. Qed.

(** X25: a timed recording whose sleep returns leaves the flag as it found
    it; one whose sleep raises (negative, infinite or NaN duration) leaves
    the recorder recording.  A capture thread is started exactly when the
    recorder was idle. *)
Theorem record_for_duration_flag (sleep_ok : bool) (r : recorder) :
  recording (record_for_duration sleep_ok r)
  = (if sleep_ok then recording r else true)
  /\ threads (record_for_duration sleep_ok r)
     = (if recording r then threads r else S (threads r)).
Proof.
  unfold record_for_duration, start_recording, stop_recording.
  destruct (recording r) eqn:E, sleep_ok; simpl; rewrite ?E; now split.
Qed.

Section Menu.

Variable strip : string -> string.
Variable duration_of : string -> option bool.

Lemma main_exit_bounded (n : nat) :
  forall (lines : list string) (r r' : recorder),
    (length lines <= n)%nat ->
    main strip duration_of lines r = Exited r' -> recording r' = false.
Proof.
  induction n as [|n IH]; intros lines r r' Hlen H.
  - destruct lines; [discriminate|simpl in Hlen; lia].
  - destruct lines as [|line rest]; [discriminate|].
    simpl in Hlen, H.
    destruct (String.eqb (strip line) "1");
      [refine (IH _ _ _ _ H); lia|].
    destruct (String.eqb (strip line) "2");
      [refine (IH _ _ _ _ H); lia|].
    destruct (String.eqb (strip line) "3").
    { destruct rest as [|duration rest']; [discriminate|]. simpl in Hlen.
      destruct (duration_of duration); refine (IH _ _ _ _ H); lia. }
    destruct (String.eqb (strip line) "4");
      [refine (IH _ _ _ _ H); lia|].
    destruct (String.eqb (strip line) "5").
    { inversion H; subst. destruct (recording r) eqn:E; [|exact E].
      apply stop_recording_stops. }
    refine (IH _ _ _ _ H); lia.
Qed.

(** X26: whatever was typed before, when the menu loop of [main] ends by
    choice 5 the recording flag is off. *)
Theorem main_exit_stops (lines : list string) (r r' : recorder) :
  main strip duration_of lines r = Exited r' -> recording r' = false.
Proof. apply (main_exit_bounded (length lines)). lia. Qed.

End Menu.

Lemma main_exit_stops_witness :
  recording (mkRecorder false 1) = false.
Proof.
  apply (main_exit_stops (fun s => s) (fun _ => Some true)
           ["1"; "5"]%string (mkRecorder false 0)).
  reflexivity.
Defined.

End RecorderFacts.

Module PathFacts.

Import Paths.
Local Open Scope string_scope.

Lemma prefix_wav_length (s : string) :
  String.prefix ".wav" s = true -> (4 <= String.length s)%nat.
Proof.
  destruct s as [|c0 [|c1 [|c2 [|c3 s]]]]; simpl; intros H;
    repeat match type of H with
           | (if ?d then _ else _) = true => destruct d; try discriminate
           end;
    try discriminate; lia.
Qed.

Lemma replace_from_length (s : string) :
  forall k, (k <= String.length s)%nat ->
    (String.length (replace_from ".wav" ".md" k s) + k
     <= String.length s)%nat.
Proof.
  induction s as [|c s IH]; intros k Hk.
  - simpl in *. lia.
  - destruct k as [|k].
    + cbn [replace_from].
      destruct (String.prefix ".wav" (String c s)) eqn:P.
      * apply prefix_wav_length in P. simpl in P.
        specialize (IH 3%nat ltac:(lia)).
        change (String.length ".wav" - 1)%nat with 3%nat.
        change (".md" ++ replace_from ".wav" ".md" 3 s)
          with (String "." (String "m" (String "d"
                  (replace_from ".wav" ".md" 3 s)))).
        simpl String.length. simpl in IH. lia.
      * specialize (IH 0%nat ltac:(lia)). simpl String.length. lia.
    + cbn [replace_from]. simpl in Hk.
      specialize (IH k ltac:(lia)). simpl String.length. lia.
Qed.

Lemma replace_shortens (s : string) :
  endswith s ".wav" = true ->
  (String.length (replace ".wav" ".md" s) < String.length s)%nat.
Proof.
  unfold replace. induction s as [|c s IH]; intros H.
  - discriminate.
  - cbn [replace_from].
    destruct (String.prefix ".wav" (String c s)) eqn:P.
    + apply prefix_wav_length in P. simpl in P.
      pose proof (replace_from_length s 3 ltac:(lia)) as L.
      change (String.length ".wav" - 1)%nat with 3%nat.
      change (".md" ++ replace_from ".wav" ".md" 3 s)
        with (String "." (String "m" (String "d"
                (replace_from ".wav" ".md" 3 s)))).
      simpl String.length. lia.
    + cbn [endswith] in H. apply orb_true_iff in H as [H|H].
      * apply String.eqb_eq in H. rewrite H in P. discriminate.
      * specialize (IH H). simpl String.length. lia.
Qed.

Section Validate.

Variable path_exists : string -> bool.

(** X27: the transcript never overwrites the audio.  For an input file
    that passes the validation of [main], the name of the Markdown file is
    shorter than the name of the input, hence another file. *)
Theorem output_md_differs (input_file : string) :
  validate path_exists input_file = None ->
  output_md input_file <> input_file
  /\ (String.length (output_md input_file)
      < String.length input_file)%nat.
Proof.
  unfold validate. intros H.
  destruct (path_exists input_file); simpl in H; [|discriminate].
  destruct (endswith input_file ".wav") eqn:E; simpl in H; [|discriminate].
  pose proof (replace_shortens input_file E) as L.
  split; [|exact L]. unfold output_md. intros C. rewrite C in L. lia.
Qed.

End Validate.

Lemma output_md_differs_witness :
  output_md "a.wav" <> "a.wav"
  /\ (String.length (output_md "a.wav") < String.length "a.wav")%nat.
Proof.
  apply (output_md_differs (fun _ => true) "a.wav"). reflexivity.
Defined.

Lemma prefix_wav_no_dot (c : ascii) (s : string) :
  Ascii.eqb c "."%char = false -> String.prefix ".wav" (String c s) = false.
Proof.
  intros H.
  change (String.prefix ".wav" (String c s))
    with (if ascii_dec "."%char c then String.prefix "wav" s else false).
  destruct (ascii_dec "."%char c) as [E|_]; [|reflexivity].
  subst c. discriminate.
Qed.

(** X28: for a name whose stem has no dot, the Markdown file is the stem
    with ".md". *)
Theorem output_md_of_stem (stem : string) :
  has_dot stem = false -> output_md (stem ++ ".wav") = stem ++ ".md".
Proof.
  unfold output_md, replace. induction stem as [|c stem IH]; intros H.
  - reflexivity.
  - simpl in H. apply orb_false_iff in H as [Hc Hs].
    change (String c stem ++ ".wav") with (String c (stem ++ ".wav")).
    cbn [replace_from]. rewrite (prefix_wav_no_dot c _ Hc).
    now rewrite (IH Hs).
Qed.

Lemma output_md_of_stem_witness :
  output_md ("meeting_20250101_120000" ++ ".wav")
  = "meeting_20250101_120000" ++ ".md".
Proof. apply output_md_of_stem. reflexivity. Defined.

End PathFacts.
